(** * Payoff model of the HedgingStrategy component (hedging-dashboard)

    A shallow embedding of [src/unnamed/part_002] ([HedgingStrategy]):
    the per-price payoff generator [generatePayoffData], the breakeven
    formula [getBreakeven], the grid extrema [maxLoss]/[maxGain], and the
    Radix sliders that set the strikes.  The input guards and requests of
    the holding forms ([Portfolio.tsx], [StockSearch.tsx]), the number
    formatting of [stockService.ts] with the gain cells that use it, and
    the risk-metric bundle described by the specification close the
    file. *)

From Stdlib Require Import Reals.
From Stdlib Require Import QArith Qround Qminmax Qabs Qpower String Ascii List ZArith NArith Lia Lqa.
From Stdlib Require Qcanon.
Import ListNotations.
Open Scope Q_scope.

(** ** Binary64 rounding

    A finite JS number is kept as the exact rational it denotes.  [rnd x]
    is the IEEE 754 binary64 rounding of a rational [x] to nearest, ties
    to even: a 53-bit significand, subnormals down to 2^-1074, and no
    upper exponent bound (overflow is decided by [to_num]). *)

Definition pow2 (e : Z) : Q := Qpower 2 e.

(** [qlog2 x] is the integer part of log2 x, for [x > 0]. *)
Definition qlog2 (x : Q) : Z :=
  let k0 := (Z.log2 (Qnum x) - Z.log2 (Zpos (Qden x)))%Z in
  if Qle_bool (pow2 k0) x then k0 else (k0 - 1)%Z.

(** The integer nearest to [r], the even one on a tie. *)
Definition round_even (r : Q) : Z :=
  let f := Qfloor r in
  let d := r - inject_Z f in
  if Qeq_bool d (1 # 2) then (if Z.even f then f else f + 1)%Z
  else if Qle_bool d (1 # 2) then f else (f + 1)%Z.

(** The exponent of the last significand bit of [a > 0]. *)
Definition rnd_exp (a : Q) : Z := Z.max (-1074) (qlog2 a - 52).

Definition rnd_pos (a : Q) : Q :=
  let e := rnd_exp a in Qred (inject_Z (round_even (a / pow2 e)) * pow2 e).

Definition rnd (x : Q) : Q :=
  if Qeq_bool x 0 then 0
  else if Qle_bool 0 x then rnd_pos x else - rnd_pos (- x).

(** ** JavaScript numbers

    A JS number is a finite double, one of the two infinities, or [NaN].
    The sign of zero is not kept: no code path of the component tells
    [-0] from [+0] (they are [===], format alike with [toFixed], and are
    both falsy). *)

Inductive num : Type :=
| Fin (q : Q)
| PInf
| NInf
| NaN.

Definition inf_of (pos : bool) : num := if pos then PInf else NInf.

(** The Number value of a real [x]: its binary64 rounding, or the
    infinity of the sign of [x] when the rounding reaches 2^1024. *)
Definition to_num (x : Q) : num :=
  let r := rnd x in
  if Qle_bool (pow2 1024) (Qabs r) then inf_of (Qle_bool 0 x) else Fin r.

(** The integer [z] as a Number (a slider value). *)
Definition nZ (z : Z) : num := Fin (inject_Z z).

Definition nneg (a : num) : num :=
  match a with
  | Fin x => Fin (- x)
  | PInf => NInf
  | NInf => PInf
  | NaN => NaN
  end.

Definition nadd (a b : num) : num :=
  match a, b with
  | NaN, _ | _, NaN => NaN
  | PInf, NInf | NInf, PInf => NaN
  | PInf, _ | _, PInf => PInf
  | NInf, _ | _, NInf => NInf
  | Fin x, Fin y => to_num (x + y)
  end.

Definition nsub (a b : num) : num := nadd a (nneg b).

(** The sign of a Number that is not [NaN]: [true] for a non-negative
    one. *)
Definition nonneg_sign (a : num) : bool :=
  match a with Fin x => Qle_bool 0 x | PInf => true | _ => false end.

Definition is_zero (a : num) : bool :=
  match a with Fin x => Qeq_bool x 0 | _ => false end.

Definition nmul (a b : num) : num :=
  match a, b with
  | NaN, _ | _, NaN => NaN
  | Fin x, Fin y => to_num (x * y)
  | _, _ =>
      if is_zero a || is_zero b then NaN
      else inf_of (Bool.eqb (nonneg_sign a) (nonneg_sign b))
  end.

Definition ndiv (a b : num) : num :=
  match a, b with
  | NaN, _ | _, NaN => NaN
  | Fin x, Fin y =>
      if Qeq_bool y 0 then
        (if Qeq_bool x 0 then NaN else inf_of (Qle_bool 0 x))
      else to_num (x / y)
  | Fin _, _ => Fin 0
  | _, Fin y => inf_of (Bool.eqb (nonneg_sign a) (Qle_bool 0 y))
  | _, _ => NaN
  end.

(** [Math.round]: the integer [floor(x + 1/2)]; [NaN] and the infinities
    are returned unchanged. *)
Definition Math_round (a : num) : num :=
  match a with
  | Fin x => Fin (inject_Z (Qfloor (x + (1 # 2))))
  | _ => a
  end.

Definition Math_abs (a : num) : num :=
  match a with
  | Fin x => Fin (Qabs x)
  | NInf => PInf
  | _ => a
  end.

(** JS [a < b]: false as soon as one side is [NaN]. *)
Definition num_lt (a b : num) : bool :=
  match a, b with
  | NaN, _ | _, NaN => false
  | Fin x, Fin y => negb (Qle_bool y x)
  | NInf, NInf | PInf, _ => false
  | NInf, _ | _, PInf => true
  | Fin _, NInf => false
  end.

(** JS [a <= b]: false as soon as one side is [NaN]. *)
Definition js_le (a b : num) : bool :=
  match a, b with
  | NaN, _ | _, NaN => false
  | _, _ => negb (num_lt b a)
  end.

(** One step of [Math.max]/[Math.min] over their arguments: [NaN] is
    returned as soon as it is met, otherwise the running extremum is
    replaced by a strictly larger (smaller) argument. *)
Definition Math_max2 (a b : num) : num :=
  match a, b with
  | NaN, _ | _, NaN => NaN
  | _, _ => if num_lt a b then b else a
  end.

Definition Math_min2 (a b : num) : num :=
  match a, b with
  | NaN, _ | _, NaN => NaN
  | _, _ => if num_lt b a then b else a
  end.

(** [Math.min(...xs)] starts from [+Infinity], [Math.max(...xs)] from
    [-Infinity]. *)
Definition Math_min (xs : list num) : num := fold_left Math_min2 xs PInf.

Definition Math_max (xs : list num) : num := fold_left Math_max2 xs NInf.

Definition is_NaN (a : num) : bool :=
  match a with NaN => true | _ => false end.

(** JS [a <= b] as a proposition. *)
Definition num_le (a b : num) : Prop := js_le a b = true.

(** A Number as the code can hold it: a finite value is a double below
    2^1024. *)
Definition valid (a : num) : Prop :=
  match a with
  | Fin q => rnd q = q /\ Qabs q < pow2 1024
  | _ => True
  end.

(** ** Strings

    A JS string is its sequence of UTF-16 code units.  [js] reads a
    string written in ASCII in this file. *)

Definition jstr : Type := list N.

Definition js (s : string) : jstr := map N_of_ascii (list_ascii_of_string s).

(** [===] on strings. *)
Fixpoint jstr_eqb (a b : jstr) : bool :=
  match a, b with
  | [], [] => true
  | x :: a', y :: b' => N.eqb x y && jstr_eqb a' b'
  | _, _ => false
  end.

(** The WhiteSpace and LineTerminator code points of ECMA-262 (TAB, VT,
    FF, ZWNBSP, the Zs space separators; LF, CR, LS, PS), all single
    UTF-16 code units. *)
Definition is_js_space (c : N) : bool :=
  (N.eqb c 9 || N.eqb c 10 || N.eqb c 11 || N.eqb c 12 || N.eqb c 13
   || N.eqb c 32 || N.eqb c 160 || N.eqb c 5760
   || ((8192 <=? c) && (c <=? 8202)) || N.eqb c 8232 || N.eqb c 8233
   || N.eqb c 8239 || N.eqb c 8287 || N.eqb c 12288 || N.eqb c 65279)%N.

Fixpoint drop_space (l : jstr) : jstr :=
  match l with
  | c :: r => if is_js_space c then drop_space r else l
  | [] => []
  end.

(** [String.prototype.trim]. *)
Definition js_trim (s : jstr) : jstr := rev (drop_space (rev (drop_space s))).

(** ** [parseFloat]

    ECMA-262 [parseFloat]: leading white space is skipped, then the
    longest prefix that is a StrDecimalLiteral is read: an optional sign,
    then [Infinity] or digits with an optional fraction and an optional
    exponent (an exponent marker not followed by digits is not part of
    the literal); [NaN] when there is no such prefix.  The value is the
    Number value of the decimal, correctly rounded. *)

Definition digit_val (c : N) : option Z :=
  if ((48 <=? c) && (c <=? 57))%N then Some (Z.of_N (c - 48)) else None.

(** Reads a run of decimal digits: its value (accumulated onto [acc]),
    its length (added to [cnt]) and the rest of the string. *)
Fixpoint read_digits (s : jstr) (acc : Z) (cnt : nat) : Z * nat * jstr :=
  match s with
  | c :: r =>
      match digit_val c with
      | Some d => read_digits r (acc * 10 + d)%Z (S cnt)
      | None => (acc, cnt, s)
      end
  | [] => (acc, cnt, s)
  end.

(** An optional sign: [true] for ["-"]. *)
Definition read_sign (s : jstr) : bool * jstr :=
  match s with
  | c :: r =>
      if (c =? 45)%N then (true, r) else if (c =? 43)%N then (false, r)
      else (false, s)
  | [] => (false, s)
  end.

(** The value of an exponent part [e|E [+|-] digits] at the head of [s],
    if [s] starts with a complete one. *)
Definition read_exponent (s : jstr) : option Z :=
  match s with
  | c :: r =>
      if (c =? 101)%N || (c =? 69)%N then
        let '(neg, r1) := read_sign r in
        let '(v, n, _) := read_digits r1 0 0 in
        if (n =? 0)%nat then None else Some (if neg then (- v)%Z else v)
      else None
  | [] => None
  end.

Fixpoint is_prefix (p s : jstr) : bool :=
  match p, s with
  | [], _ => true
  | x :: p', y :: s' => N.eqb x y && is_prefix p' s'
  | _, _ => false
  end.

(** The Number value of [± m * 10^e] for [m >= 0]: [to_num] of the exact
    decimal, with the results that need no rounding taken directly (zero
    significand; a value beyond 10^308 * 10 or below 2^-1075). *)
Definition decimal_to_num (neg : bool) (m e : Z) : num :=
  if (m =? 0)%Z then Fin 0
  else if (309 <=? e)%Z then inf_of (negb neg)
  else if (Z.log2 m + 1076 <=? -3 * e)%Z then Fin 0
  else to_num ((if neg then -1 else 1) * inject_Z m * Qpower 10 e).

Definition parseFloat (input : jstr) : num :=
  let '(neg, s1) := read_sign (drop_space input) in
  if is_prefix (js "Infinity") s1 then inf_of (negb neg)
  else
    let '(ip, n1, s2) := read_digits s1 0 0 in
    let '(fp, n2, s3) :=
      match s2 with
      | c :: r => if (c =? 46)%N then read_digits r 0 0 else (0%Z, 0%nat, s2)
      | [] => (0%Z, 0%nat, s2)
      end in
    if (n1 + n2 =? 0)%nat then NaN
    else
      let e := match read_exponent s3 with Some v => v | None => 0%Z end in
      decimal_to_num neg (ip * 10 ^ Z.of_nat n2 + fp) (e - Z.of_nat n2).

(** ** Component state

    The [useState] hooks of [HedgingStrategy].  The slider states are
    one-element arrays in the source and are modelled by their element
    [0], an integer (each slider has integer bounds and [step={1}]); the
    premiums are the texts of their [Input]s. *)

Record HedgeState : Type := {
  strategy : jstr;
  currentPrice : Z;
  putStrike : Z;
  callStrike : Z;
  putPremium : jstr;
  callPremium : jstr
}.

Definition initialState : HedgeState := {|
  strategy := js "collar";
  currentPrice := 100;
  putStrike := 95;
  callStrike := 110;
  putPremium := js "10";
  callPremium := js "10"
|}.

(** ** [generatePayoffData] *)

Record PayoffPoint : Type := { price : Z; payoff : num }.

(** [for (let price = 85; price <= 120; price += 1)], with enough fuel for
    its 36 iterations. *)
Fixpoint price_loop (p : Z) (fuel : nat) : list Z :=
  match fuel with
  | O => []
  | S f => if (p <=? 120)%Z then p :: price_loop (p + 1) f else []
  end.

Definition priceGrid : list Z := price_loop 85 36.

(** The loop body up to the rounding: the [payoff] accumulated by the
    strategy branches, in double arithmetic. *)
Definition payoff_at (s : HedgeState) (p : Z) : num :=
  let price := nZ p in
  let stockGain := nsub price (nZ (currentPrice s)) in
  if jstr_eqb (strategy s) (js "collar") then
    let putPayoff :=
      nsub (Math_max2 (nsub (nZ (putStrike s)) price) (Fin 0))
           (parseFloat (putPremium s)) in
    let callPayoff :=
      nadd (nneg (Math_max2 (nsub price (nZ (callStrike s))) (Fin 0)))
           (parseFloat (callPremium s)) in
    nadd (nadd stockGain putPayoff) callPayoff
  else if jstr_eqb (strategy s) (js "protective_put") then
    let putPayoff :=
      nsub (Math_max2 (nsub (nZ (putStrike s)) price) (Fin 0))
           (parseFloat (putPremium s)) in
    nadd stockGain putPayoff
  else if jstr_eqb (strategy s) (js "bear_put_spread") then
    let longPutPayoff :=
      nsub (Math_max2 (nsub (nZ (putStrike s)) price) (Fin 0))
           (parseFloat (putPremium s)) in
    let shortPutPayoff :=
      nadd (nneg (Math_max2 (nsub (nZ (callStrike s)) price) (Fin 0)))
           (parseFloat (callPremium s)) in
    nadd longPutPayoff shortPutPayoff
  else Fin 0.

(** [Math.round(payoff * 100) / 100] *)
Definition round_cents (a : num) : num :=
  ndiv (Math_round (nmul a (Fin 100))) (Fin 100).

Definition generatePayoffData (s : HedgeState) : list PayoffPoint :=
  map (fun p => {| price := p; payoff := round_cents (payoff_at s p) |})
      priceGrid.

(** ** [getBreakeven], [maxLoss], [maxGain] *)

Definition getBreakeven (s : HedgeState) : num :=
  if jstr_eqb (strategy s) (js "collar") then
    nsub (nadd (nZ (currentPrice s)) (parseFloat (callPremium s)))
         (parseFloat (putPremium s))
  else if jstr_eqb (strategy s) (js "protective_put") then
    nadd (nZ (currentPrice s)) (parseFloat (putPremium s))
  else if jstr_eqb (strategy s) (js "bear_put_spread") then
    nadd (nsub (nZ (putStrike s)) (parseFloat (putPremium s)))
         (parseFloat (callPremium s))
  else nZ (currentPrice s).

Definition maxLoss (s : HedgeState) : num :=
  Math_min (map payoff (generatePayoffData s)).

Definition maxGain (s : HedgeState) : num :=
  Math_max (map payoff (generatePayoffData s)).

(** ** The legs as the specification writes them

    Stock leg [price − underlyingPrice]; long put [max(strike − price, 0) −
    premiumPaid]; short call [− max(price − strike, 0) + premiumReceived];
    short put [− max(strike − price, 0) + premiumReceived]; in exact
    arithmetic. *)

Definition stock_leg (underlying x : Q) : Q := x - underlying.
Definition long_put (strike prem x : Q) : Q := Qmax (strike - x) 0 - prem.
Definition short_call (strike prem x : Q) : Q := - Qmax (x - strike) 0 + prem.
Definition short_put (strike prem x : Q) : Q := - Qmax (strike - x) 0 + prem.

(** The exact leg sum of the branch the code takes for [s], with premiums
    [pp] (put) and [cp] (second leg). *)
Definition exact_payoff (s : HedgeState) (pp cp : Q) (p : Z) : Q :=
  let x := inject_Z p in
  let S := inject_Z (currentPrice s) in
  let K1 := inject_Z (putStrike s) in
  let K2 := inject_Z (callStrike s) in
  if jstr_eqb (strategy s) (js "collar") then
    stock_leg S x + long_put K1 pp x + short_call K2 cp x
  else if jstr_eqb (strategy s) (js "protective_put") then
    stock_leg S x + long_put K1 pp x
  else if jstr_eqb (strategy s) (js "bear_put_spread") then
    long_put K1 pp x + short_put K2 cp x
  else 0.

(** The payoff reported at grid price [p], if [p] is on the grid. *)
Definition payoff_at_price (data : list PayoffPoint) (p : Z) : option num :=
  option_map payoff (find (fun pt => Z.eqb (price pt) p) data).

(** ** Breakeven as the specification derives it

    The specification's [computePayoffSummary]: the first grid point whose
    payoff is 0, or else linear interpolation between the first two
    consecutive points whose payoffs have strictly opposite signs; [None]
    (null) when the payoff sequence has no sign change.  Stated over the
    finite payoffs; any other payoff is no sign change. *)
Fixpoint spec_breakeven (data : list PayoffPoint) : option Q :=
  match data with
  | [] => None
  | pt1 :: rest =>
      match payoff pt1 with
      | Fin v1 =>
          if Qeq_bool v1 0 then Some (inject_Z (price pt1)) else
          match rest with
          | pt2 :: _ =>
              match payoff pt2 with
              | Fin v2 =>
                  if negb (Qle_bool 0 (v1 * v2)) then
                    Some (inject_Z (price pt1)
                          + (0 - v1) * (inject_Z (price pt2) - inject_Z (price pt1))
                            / (v2 - v1))
                  else spec_breakeven rest
              | _ => spec_breakeven rest
              end
          | [] => None
          end
      | _ => spec_breakeven rest
      end
  end.

(** ** Slider and input events

    The strike and price controls are Radix sliders with integer [min],
    [max] and [step={1}].  Whatever the pointer or key proposes is snapped
    to an integer [v] and reported through [onValueChange] as
    [Math.min(max, Math.max(min, v))], with the [min] and [max] the slider
    is rendered with at that moment (so [max] when [min > max]).  A change
    of one slider's bounds does not re-report the value held by another.
    The [Select] only offers its three items; the premium [Input]s accept
    any text.  [ui_step] is [None] for an event the rendered controls
    cannot produce. *)

Inductive UiEvent : Type :=
| SelectStrategy (v : jstr)
| SlideCurrentPrice (v : Z)
| SlidePutStrike (v : Z)
| SlideCallStrike (v : Z)
| TypePutPremium (v : jstr)
| TypeCallPremium (v : jstr).

(** Radix's [clamp(value, [min, max])]. *)
Definition clamp (lo hi v : Z) : Z := Z.min hi (Z.max lo v).

(** [strategy === 'collar' || strategy === 'bear_put_spread'], the guard
    under which the second strike slider and premium input are rendered. *)
Definition has_second_leg (s : HedgeState) : bool :=
  jstr_eqb (strategy s) (js "collar") || jstr_eqb (strategy s) (js "bear_put_spread").

Definition with_strategy (s : HedgeState) (v : jstr) : HedgeState :=
  {| strategy := v; currentPrice := currentPrice s; putStrike := putStrike s;
     callStrike := callStrike s; putPremium := putPremium s;
     callPremium := callPremium s |}.
Definition with_currentPrice (s : HedgeState) (v : Z) : HedgeState :=
  {| strategy := strategy s; currentPrice := v; putStrike := putStrike s;
     callStrike := callStrike s; putPremium := putPremium s;
     callPremium := callPremium s |}.
Definition with_putStrike (s : HedgeState) (v : Z) : HedgeState :=
  {| strategy := strategy s; currentPrice := currentPrice s; putStrike := v;
     callStrike := callStrike s; putPremium := putPremium s;
     callPremium := callPremium s |}.
Definition with_callStrike (s : HedgeState) (v : Z) : HedgeState :=
  {| strategy := strategy s; currentPrice := currentPrice s;
     putStrike := putStrike s; callStrike := v; putPremium := putPremium s;
     callPremium := callPremium s |}.
Definition with_putPremium (s : HedgeState) (v : jstr) : HedgeState :=
  {| strategy := strategy s; currentPrice := currentPrice s;
     putStrike := putStrike s; callStrike := callStrike s; putPremium := v;
     callPremium := callPremium s |}.
Definition with_callPremium (s : HedgeState) (v : jstr) : HedgeState :=
  {| strategy := strategy s; currentPrice := currentPrice s;
     putStrike := putStrike s; callStrike := callStrike s;
     putPremium := putPremium s; callPremium := v |}.

(** The [min] of the second strike slider. *)
Definition callStrike_min (s : HedgeState) : Z :=
  if jstr_eqb (strategy s) (js "bear_put_spread") then (putStrike s + 5)%Z
  else (currentPrice s + 5)%Z.

Definition ui_step (s : HedgeState) (e : UiEvent) : option HedgeState :=
  match e with
  | SelectStrategy v =>
      if jstr_eqb v (js "collar") || jstr_eqb v (js "protective_put")
         || jstr_eqb v (js "bear_put_spread")
      then Some (with_strategy s v) else None
  | SlideCurrentPrice v => Some (with_currentPrice s (clamp 50 150 v))
  | SlidePutStrike v =>
      Some (with_putStrike s (clamp 50 (currentPrice s - 5) v))
  | SlideCallStrike v =>
      if has_second_leg s
      then Some (with_callStrike s (clamp (callStrike_min s) 150 v)) else None
  | TypePutPremium v => Some (with_putPremium s v)
  | TypeCallPremium v =>
      if has_second_leg s then Some (with_callPremium s v) else None
  end.

Fixpoint ui_run (s : HedgeState) (es : list UiEvent) : option HedgeState :=
  match es with
  | [] => Some s
  | e :: es' =>
      match ui_step s e with Some s' => ui_run s' es' | None => None end
  end.

(** The ranges every state reachable through the controls stays in. *)
Definition ui_inv (s : HedgeState) : Prop :=
  (strategy s = js "collar" \/ strategy s = js "protective_put" \/
   strategy s = js "bear_put_spread") /\
  (50 <= currentPrice s <= 150)%Z /\
  (45 <= putStrike s <= 145)%Z /\
  (50 <= callStrike s <= 150)%Z.

(** ** Input guards of the holding forms *)

(** [!s] for a string: the empty string is falsy. *)
Definition js_empty (s : jstr) : bool :=
  match s with [] => true | _ => false end.

(** [Portfolio.addHoldingByShares]: [true] when the request is sent, i.e.
    neither [!symbol || !symbol.trim()] nor [quantity <= 0 || price <= 0]
    returns early. *)
Definition addHoldingByShares_passes (symbol : jstr) (quantity px : num)
  : bool :=
  if js_empty symbol || js_empty (js_trim symbol) then false
  else if js_le quantity (Fin 0) || js_le px (Fin 0) then false
  else true.


(** [AddHoldingRequest]: [quantity] and [amount] are optional fields. *)
Record AddHoldingRequest : Type := {
  req_symbol : jstr;
  req_type : jstr;
  req_quantity : option num;
  req_amount : option num
}.

Section Requests.
(** [String.prototype.toUpperCase] (the Unicode case mapping) is left
    abstract. *)
Variable toUpperCase : jstr -> jstr.

(** [Portfolio.addHoldingByShares]: the request it sends, if any. *)
Definition addHoldingByShares_request (symbol : jstr) (quantity px : num)
  : option AddHoldingRequest :=
  if addHoldingByShares_passes symbol quantity px
  then Some {| req_symbol := toUpperCase (js_trim symbol); req_type := js "shares";
               req_quantity := Some quantity; req_amount := None |}
  else None.

(** [Portfolio.addHoldingByDollars]: the same guards on [dollarAmount]. *)
Definition addHoldingByDollars_request (symbol : jstr) (dollarAmount px : num)
  : option AddHoldingRequest :=
  if js_empty symbol || js_empty (js_trim symbol) then None
  else if js_le dollarAmount (Fin 0) || js_le px (Fin 0) then None
  else Some {| req_symbol := toUpperCase (js_trim symbol); req_type := js "dollars";
               req_quantity := None; req_amount := Some dollarAmount |}.

(** [StockSearch.confirmAddToPortfolio]: [stockSymbol] is the symbol of
    [stockToAdd] ([None] when no stock is selected); the request sent, if
    any. *)
Definition confirmAddToPortfolio (stockSymbol : option jstr)
  (purchaseType quantity dollarAmount : jstr) : option AddHoldingRequest :=
  match stockSymbol with
  | None => None
  | Some sym =>
      if jstr_eqb purchaseType (js "shares") then
        if js_empty quantity || js_le (parseFloat quantity) (Fin 0) then None
        else Some {| req_symbol := toUpperCase (js_trim sym); req_type := purchaseType;
                     req_quantity := Some (parseFloat quantity); req_amount := None |}
      else
        if js_empty dollarAmount || js_le (parseFloat dollarAmount) (Fin 0)
        then None
        else Some {| req_symbol := toUpperCase (js_trim sym); req_type := purchaseType;
                     req_quantity := None; req_amount := Some (parseFloat dollarAmount) |}
  end.
End Requests.

(** The [disabled] expression of the "Add to Portfolio" button. *)
Definition addButtonDisabled (addingToPortfolio : bool)
  (purchaseType quantity dollarAmount : jstr) : bool :=
  addingToPortfolio
  || (jstr_eqb purchaseType (js "shares")
      && (js_empty quantity || js_le (parseFloat quantity) (Fin 0)))
  || (jstr_eqb purchaseType (js "dollars")
      && (js_empty dollarAmount || js_le (parseFloat dollarAmount) (Fin 0))).

(** ** Number formatting ([stockService.ts])

    [Number.prototype.toFixed(2)] following ECMA-262: [NaN] and the
    infinities give their names; for [x < 0] the sign ["-"] is emitted
    and [x] negated; then [n] is the integer nearest to [100 x], the
    larger one on a tie, written with its last two digits after the
    point.  [x] is the exact value of the double, so ties are those of the
    double.  For [|x| >= 10^21] the result is [String(x)] in exponent
    form, which is not modelled ([None]).  The output is ASCII and is
    kept as a [string]. *)

Definition digit_char (d : Z) : ascii := ascii_of_nat (48 + Z.to_nat d).

Fixpoint dec_aux (fuel : nat) (n : Z) (acc : string) : string :=
  match fuel with
  | O => acc
  | S f =>
      let acc' := String (digit_char (n mod 10)) acc in
      if (n <? 10)%Z then acc' else dec_aux f (n / 10) acc'
  end.

(** Decimal digits of a non-negative integer, without leading zeroes. *)
Definition Z_to_dec (n : Z) : string :=
  dec_aux (S (Z.to_nat (Z.log2 n))) n EmptyString.

Definition two_digits (m : Z) : string :=
  String (digit_char (m / 10)) (String (digit_char (m mod 10)) EmptyString).

Definition toFixed2 (x : num) : option string :=
  match x with
  | NaN => Some "NaN"%string
  | PInf => Some "Infinity"%string
  | NInf => Some "-Infinity"%string
  | Fin q =>
      if Qle_bool 1000000000000000000000 (Qabs q) then None
      else
        let n := Qfloor (Qabs q * 100 + (1 # 2)) in
        Some ((if Qle_bool 0 q then "" else "-") ++
              Z_to_dec (n / 100) ++ "." ++ two_digits (n mod 100))%string
  end.

(** [StockService.formatPercent]:
    [`${percent >= 0 ? '+' : ''}${percent.toFixed(2)}%`]. *)
Definition formatPercent (percent : num) : option string :=
  match toFixed2 percent with
  | Some t => Some ((if js_le (Fin 0) percent then "+" else "") ++ t ++ "%")%string
  | None => None
  end.

(** [StockService.formatMarketCap]; the last branch,
    [marketCap.toLocaleString()], depends on the locale and is not
    modelled ([None]). *)
Definition formatMarketCap (marketCap : num) : option string :=
  let scaled (unit : Q) (suffix : string) :=
    match toFixed2 (ndiv marketCap (Fin unit)) with
    | Some t => Some ("$" ++ t ++ suffix)%string
    | None => None
    end in
  if js_le (Fin 1000000000000) marketCap then scaled 1000000000000 "T"%string
  else if js_le (Fin 1000000000) marketCap then scaled 1000000000 "B"%string
  else if js_le (Fin 1000000) marketCap then scaled 1000000 "M"%string
  else None.

(** ** Gain/loss display ([Portfolio.tsx])

    Every gain field is read as [x || 0]: a falsy value ([NaN], [0], and
    an absent field, which behaves like [NaN] here) becomes [0]. *)

Definition js_or_zero (x : num) : num :=
  match x with NaN => Fin 0 | _ => x end.

Inductive tone : Type := Muted | Green | Red.

(** The colour class of a gain or return cell:
    [(x || 0) === 0 ? muted : (x || 0) > 0 ? green : red]. *)
Definition gain_tone (x : num) : tone :=
  let v := js_or_zero x in
  if is_zero v then Muted else if num_lt (Fin 0) v then Green else Red.

(** The text of a return cell:
    [(x || 0) === 0 ? '0.00%' : formatPercent(x || 0)]. *)
Definition percent_text (x : num) : option string :=
  let v := js_or_zero x in
  if is_zero v then Some "0.00%"%string else formatPercent v.

Section GainText.
(** [StockService.formatPrice] ([Intl.NumberFormat]) is left abstract. *)
Variable formatPrice : num -> string.

(** The text of a holding's gain cell: [(g || 0) === 0 ? '$0.00' :
    ((g || 0) >= 0 ? '+' : '') + formatPrice(Math.abs(g || 0))]. *)
Definition holding_gain_text (g : num) : string :=
  let v := js_or_zero g in
  if is_zero v then "$0.00"%string
  else ((if js_le (Fin 0) v then "+" else "") ++ formatPrice (Math_abs v))%string.

(** The text of the total gain card: [$0.00] at zero, otherwise
    [formatPrice(Math.abs(...))] after a trend icon. *)
Definition total_gain_text (g : num) : string :=
  let v := js_or_zero g in
  if is_zero v then "$0.00"%string else formatPrice (Math_abs v).
End GainText.
(** ** Risk metrics

    Modelled from the spec: the risk-metrics engine of the Flask backend
    ([backend/app.py]), which is not part of the sources; only its record
    shape is ([risk_metrics] in [types/database.ts], with nullable [beta],
    [sharpe_ratio] and [volatility]).  Following section 4.3: volatility is
    the sample standard deviation (ddof = 1) of the per-period returns;
    beta is covariance / variance of the benchmark and fails with
    [UndefinedMetricError] when the benchmark is absent or its variance is
    0; the Sharpe ratio is (mean return − risk-free rate per period) /
    volatility per period and is undefined when the volatility is 0.  An
    undefined metric is reported as null on that metric alone. *)
Module RiskMetricsModel.

Local Open Scope R_scope.

Inductive MetricError : Type := UndefinedMetricError.

Inductive Metric : Type :=
| Defined (r : R)
| Undefined (e : MetricError).

(** The reported value: [null] (here [None]) for an undefined metric. *)
Definition report (m : Metric) : option R :=
  match m with Defined r => Some r | Undefined _ => None end.

Definition sum (xs : list R) : R := fold_right Rplus 0 xs.

Definition mean (xs : list R) : R := sum xs / INR (length xs).

Definition sample_variance (xs : list R) : R :=
  let m := mean xs in
  sum (map (fun x => (x - m) * (x - m)) xs) / INR (length xs - 1).

Definition sample_covariance (xs ys : list R) : R :=
  let mx := mean xs in
  let my := mean ys in
  sum (map (fun '(x, y) => (x - mx) * (y - my)) (combine xs ys))
  / INR (length xs - 1).

Definition volatilityPerPeriod (xs : list R) : R := sqrt (sample_variance xs).

Definition sharpeRatio (rets : list R) (riskFreeRatePerPeriod : R) : Metric :=
  let v := volatilityPerPeriod rets in
  if Req_dec_T v 0 then Undefined UndefinedMetricError
  else Defined ((mean rets - riskFreeRatePerPeriod) / v).

Definition beta (rets : list R) (benchmark : option (list R)) : Metric :=
  match benchmark with
  | None => Undefined UndefinedMetricError
  | Some b =>
      let vb := sample_variance b in
      if Req_dec_T vb 0 then Undefined UndefinedMetricError
      else Defined (sample_covariance rets b / vb)
  end.

Record RiskMetrics : Type := {
  volatility : R;
  betaMetric : Metric;
  sharpeMetric : Metric
}.

Definition computeMetrics (rets : list R) (benchmark : option (list R))
  (riskFreeRatePerPeriod : R) : RiskMetrics :=
  {| volatility := volatilityPerPeriod rets;
     betaMetric := beta rets benchmark;
     sharpeMetric := sharpeRatio rets riskFreeRatePerPeriod |}.

End RiskMetricsModel.

(** ** Error analysis

    [close a x e]: [a] is a finite Number within [e] of the rational
    [x]. *)
Definition close (a : num) (x e : Q) : Prop :=
  exists q, a = Fin q /\ x - e <= q /\ q <= x + e.


Lemma pow2_pos (e : Z) : 0 < pow2 e.
Proof. unfold pow2. apply Qpower_0_lt. reflexivity. Qed.

Lemma pow2_nz (e : Z) : ~ pow2 e == 0.
Proof. pose proof (pow2_pos e). intros H'. rewrite H' in H. discriminate. Qed.

Lemma pow2_add (a b : Z) : pow2 (a + b) == pow2 a * pow2 b.
Proof. unfold pow2. apply Qpower_plus. discriminate. Qed.

Lemma pow2_le (a b : Z) : (a <= b)%Z -> pow2 a <= pow2 b.
Proof. intros H. apply Qpower_le_compat_l; [exact H | discriminate]. Qed.

Lemma pow2_lt (a b : Z) : (a < b)%Z -> pow2 a < pow2 b.
Proof. intros H. apply Qpower_lt_compat_l; [exact H | reflexivity]. Qed.

Lemma pow2_lt_inv (a b : Z) : pow2 a < pow2 b -> (a < b)%Z.
Proof. intros H. apply (Qpower_lt_compat_l_inv 2); [exact H | reflexivity]. Qed.

Lemma pow2_le_inv (a b : Z) : pow2 a <= pow2 b -> (a <= b)%Z.
Proof. intros H. apply (Qpower_le_compat_l_inv 2); [exact H | reflexivity]. Qed.

Lemma pow2_Z (n : Z) : (0 <= n)%Z -> pow2 n == inject_Z (2 ^ n).
Proof. intros H. unfold pow2. rewrite Zpower_Qpower by exact H. reflexivity. Qed.

Lemma pow2_opp (n : Z) : pow2 (- n) == / pow2 n.
Proof. unfold pow2. apply Qpower_opp. Qed.

Lemma pow2_diff (a b : Z) : (0 <= a)%Z -> (0 <= b)%Z ->
  pow2 (a - b) == (2 ^ a) # Z.to_pos (2 ^ b).
Proof.
  intros Ha Hb. unfold Z.sub. rewrite pow2_add, pow2_opp, !pow2_Z by lia.
  assert (Hp : (0 < 2 ^ b)%Z) by (apply Z.pow_pos_nonneg; lia).
  destruct (2 ^ b)%Z as [| p | p] eqn:E; try lia.
  unfold Qeq, Qmult, Qinv, inject_Z. simpl. lia.
Qed.

Lemma Qmake_lt (a c : Z) (b d : positive) :
  (a # b) < (c # d) <-> (a * Zpos d < c * Zpos b)%Z.
Proof. reflexivity. Qed.

Lemma Qmake_le (a c : Z) (b d : positive) :
  (a # b) <= (c # d) <-> (a * Zpos d <= c * Zpos b)%Z.
Proof. reflexivity. Qed.

Lemma qlog2_spec (x : Q) : 0 < x -> pow2 (qlog2 x) <= x /\ x < pow2 (qlog2 x + 1).
Proof.
  destruct x as [n d]. intros Hn. unfold Qlt in Hn. simpl in Hn.
  rewrite Z.mul_1_r in Hn.
  unfold qlog2. simpl Qnum. simpl Qden.
  set (ln := Z.log2 n). set (ld := Z.log2 (Zpos d)).
  pose proof (Z.log2_spec n Hn) as [Hn1 Hn2].
  pose proof (Z.log2_spec (Zpos d) eq_refl) as [Hd1 Hd2].
  fold ln in Hn1, Hn2. fold ld in Hd1, Hd2.
  assert (Hln : (0 <= ln)%Z) by apply Z.log2_nonneg.
  assert (Hld : (0 <= ld)%Z) by apply Z.log2_nonneg.
  assert (P1 : (0 < 2 ^ ld)%Z) by (apply Z.pow_pos_nonneg; lia).
  assert (P2 : (0 < 2 ^ (ld + 1))%Z) by (apply Z.pow_pos_nonneg; lia).
  assert (Hup : (n # d) < pow2 (ln - ld + 1)).
  { replace (ln - ld + 1)%Z with ((ln + 1) - ld)%Z by lia.
    rewrite pow2_diff by lia. apply Qmake_lt.
    rewrite Z2Pos.id by lia.
    apply Z.lt_le_trans with (2 ^ (ln + 1) * 2 ^ ld)%Z.
    - apply Z.mul_lt_mono_pos_r; lia.
    - apply Z.mul_le_mono_nonneg_l; [apply Z.pow_nonneg |]; lia. }
  assert (Hlo : pow2 (ln - ld - 1) <= (n # d)).
  { replace (ln - ld - 1)%Z with (ln - (ld + 1))%Z by lia.
    rewrite pow2_diff by lia. apply Qmake_le.
    rewrite Z2Pos.id by lia.
    apply Z.le_trans with (n * Zpos d)%Z.
    - apply Z.mul_le_mono_nonneg_r; lia.
    - apply Z.mul_le_mono_nonneg_l; lia. }
  destruct (Qle_bool (pow2 (ln - ld)) (n # d)) eqn:E.
  - apply Qle_bool_iff in E. split; [exact E | exact Hup].
  - split; [exact Hlo |].
    replace (ln - ld - 1 + 1)%Z with (ln - ld)%Z by lia.
    destruct (Qlt_le_dec (n # d) (pow2 (ln - ld))) as [H | H]; [exact H |].
    apply Qle_bool_iff in H. congruence.
Qed.

Lemma qlog2_unique (x : Q) (k : Z) :
  pow2 k <= x -> x < pow2 (k + 1) -> qlog2 x = k.
Proof.
  intros H1 H2.
  assert (Hx : 0 < x) by (pose proof (pow2_pos k); lra).
  destruct (qlog2_spec x Hx) as [H3 H4].
  assert (A : (k < qlog2 x + 1)%Z) by (apply pow2_lt_inv; lra).
  assert (B : (qlog2 x < k + 1)%Z) by (apply pow2_lt_inv; lra).
  lia.
Qed.

Lemma qlog2_Qeq (x y : Q) : 0 < x -> x == y -> qlog2 x = qlog2 y.
Proof.
  intros Hx E. destruct (qlog2_spec x Hx) as [H1 H2].
  symmetry. apply qlog2_unique; rewrite <- E; assumption.
Qed.

Lemma qlog2_mono (x y : Q) : 0 < x -> x <= y -> (qlog2 x <= qlog2 y)%Z.
Proof.
  intros Hx Hxy. destruct (qlog2_spec x Hx) as [H1 H2].
  destruct (qlog2_spec y ltac:(lra)) as [H3 H4].
  assert (qlog2 x < qlog2 y + 1)%Z by (apply pow2_lt_inv; lra). lia.
Qed.

(* round_even *)

Lemma Qfloor_bounds (r : Q) : inject_Z (Qfloor r) <= r /\ r < inject_Z (Qfloor r) + 1.
Proof.
  split; [apply Qfloor_le |].
  pose proof (Qlt_floor r) as H. rewrite inject_Z_plus in H. exact H.
Qed.

Lemma round_even_cases (r : Q) :
  let f := Qfloor r in
  (round_even r = f /\ r - inject_Z f <= 1 # 2) \/
  (round_even r = (f + 1)%Z /\ 1 # 2 <= r - inject_Z f).
Proof.
  intros f. unfold round_even. fold f.
  destruct (Qeq_bool (r - inject_Z f) (1 # 2)) eqn:E1.
  - apply Qeq_bool_iff in E1.
    destruct (Z.even f); [left | right]; split; try reflexivity; lra.
  - destruct (Qle_bool (r - inject_Z f) (1 # 2)) eqn:E2.
    + left. split; [reflexivity |]. apply Qle_bool_iff in E2. exact E2.
    + right. split; [reflexivity |].
      destruct (Qlt_le_dec (1 # 2) (r - inject_Z f)) as [H | H]; [lra |].
      apply Qle_bool_iff in H. congruence.
Qed.

Lemma round_even_err (r : Q) :
  r - (1 # 2) <= inject_Z (round_even r) /\ inject_Z (round_even r) <= r + (1 # 2).
Proof.
  destruct (Qfloor_bounds r) as [H1 H2].
  destruct (round_even_cases r) as [[-> H] | [-> H]].
  - split; lra.
  - rewrite inject_Z_plus. change (inject_Z 1) with 1. split; lra.
Qed.

Lemma round_even_Z (z : Z) : round_even (inject_Z z) = z.
Proof.
  destruct (round_even_cases (inject_Z z)) as [[E _] | [E H]];
    rewrite Qfloor_Z in *; [exact E |].
  exfalso. lra.
Qed.

Lemma round_even_mono (r s : Q) : r <= s -> (round_even r <= round_even s)%Z.
Proof.
  intros Hrs.
  pose proof (Qfloor_resp_le r s Hrs) as Hf.
  destruct (Qfloor_bounds r) as [R1 R2]. destruct (Qfloor_bounds s) as [S1 S2].
  destruct (Z.eq_dec (Qfloor r) (Qfloor s)) as [Ef | Nf].
  - unfold round_even. rewrite <- Ef.
    set (f := Qfloor r) in *.
    destruct (Qeq_bool (r - inject_Z f) (1 # 2)) eqn:A1;
    destruct (Qeq_bool (s - inject_Z f) (1 # 2)) eqn:B1;
    try destruct (Z.even f);
    destruct (Qle_bool (r - inject_Z f) (1 # 2)) eqn:A2;
    destruct (Qle_bool (s - inject_Z f) (1 # 2)) eqn:B2; try lia;
    repeat match goal with
    | H : Qeq_bool _ _ = true |- _ => apply Qeq_bool_iff in H
    | H : Qle_bool _ _ = true |- _ => apply Qle_bool_iff in H
    | H : Qeq_bool _ _ = false |- _ => apply Qeq_bool_neq in H
    | H : Qle_bool ?a ?b = false |- _ =>
        let H' := fresh in
        destruct (Qlt_le_dec b a) as [H' | H'];
        [clear H | apply Qle_bool_iff in H'; congruence]
    end; exfalso; try lra.
  - assert (Qfloor r + 1 <= Qfloor s)%Z by lia.
    destruct (round_even_cases r) as [[-> _] | [-> _]];
    destruct (round_even_cases s) as [[-> _] | [-> _]]; lia.
Qed.

Lemma round_even_le_Z (r : Q) (n : Z) : r <= inject_Z n -> (round_even r <= n)%Z.
Proof. intros H. rewrite <- (round_even_Z n). apply round_even_mono, H. Qed.

Lemma round_even_ge_Z (r : Q) (n : Z) : inject_Z n <= r -> (n <= round_even r)%Z.
Proof. intros H. rewrite <- (round_even_Z n). apply round_even_mono, H. Qed.

Lemma round_even_Qeq (r s : Q) : r == s -> round_even r = round_even s.
Proof.
  intros E. apply Z.le_antisymm; apply round_even_mono; rewrite E; apply Qle_refl.
Qed.
Lemma rnd_exp_lb (a : Q) : (-1074 <= rnd_exp a)%Z.
Proof. unfold rnd_exp. lia. Qed.

Lemma rnd_exp_lb2 (a : Q) : (qlog2 a - 52 <= rnd_exp a)%Z.
Proof. unfold rnd_exp. lia. Qed.

Lemma rnd_exp_cases (a : Q) : rnd_exp a = (-1074)%Z \/ rnd_exp a = (qlog2 a - 52)%Z.
Proof. unfold rnd_exp. lia. Qed.

Lemma scaled_lt (a : Q) : 0 < a -> a / pow2 (rnd_exp a) < pow2 53.
Proof.
  intros Ha. destruct (qlog2_spec a Ha) as [_ H].
  apply Qlt_shift_div_r; [apply pow2_pos |].
  rewrite <- pow2_add. eapply Qlt_le_trans; [exact H |].
  apply pow2_le. pose proof (rnd_exp_lb2 a). lia.
Qed.

Lemma mant_bounds (a : Q) : 0 < a ->
  (0 <= round_even (a / pow2 (rnd_exp a)) <= 2 ^ 53)%Z.
Proof.
  intros Ha. split.
  - apply round_even_ge_Z. apply Qle_shift_div_l; [apply pow2_pos |]. rewrite Qmult_0_l. lra.
  - apply round_even_le_Z. rewrite <- pow2_Z by lia. apply Qlt_le_weak, scaled_lt, Ha.
Qed.

Lemma rnd_pos_eq (a : Q) :
  rnd_pos a == inject_Z (round_even (a / pow2 (rnd_exp a))) * pow2 (rnd_exp a).
Proof. unfold rnd_pos. apply Qred_correct. Qed.

Lemma pow2_pred (e : Z) : pow2 (e - 1) == pow2 e * (1 # 2).
Proof. replace (e - 1)%Z with (e + -1)%Z by lia. rewrite pow2_add. reflexivity. Qed.

Lemma rnd_pos_err (a : Q) : 0 < a ->
  a - pow2 (rnd_exp a - 1) <= rnd_pos a /\ rnd_pos a <= a + pow2 (rnd_exp a - 1).
Proof.
  intros Ha. rewrite rnd_pos_eq, pow2_pred.
  set (p := pow2 (rnd_exp a)).
  assert (Hp : 0 < p) by apply pow2_pos.
  destruct (round_even_err (a / p)) as [H1 H2].
  set (m := inject_Z (round_even (a / p))) in *.
  assert (Ea : a == (a / p) * p) by (field; apply pow2_nz).
  set (r := a / p) in *.
  split.
  - apply (Qmult_le_compat_r _ _ p) in H1; [| lra].
    setoid_replace ((r - (1 # 2)) * p) with (r * p - p * (1 # 2)) in H1 by ring.
    rewrite <- Ea in H1. exact H1.
  - apply (Qmult_le_compat_r _ _ p) in H2; [| lra].
    setoid_replace ((r + (1 # 2)) * p) with (r * p + p * (1 # 2)) in H2 by ring.
    rewrite <- Ea in H2. exact H2.
Qed.

Lemma exp_bound (a : Q) : 0 < a ->
  pow2 (rnd_exp a - 1) <= a * pow2 (-53) + pow2 (-1075).
Proof.
  intros Ha. pose proof (pow2_pos (-53)) as P53. pose proof (pow2_pos (-1075)) as P1075.
  assert (Hnn : 0 <= a * pow2 (-53)) by (apply Qmult_le_0_compat; lra).
  destruct (rnd_exp_cases a) as [E | E]; rewrite E.
  - change (-1074 - 1)%Z with (-1075)%Z. lra.
  - destruct (qlog2_spec a Ha) as [H _].
    replace (qlog2 a - 52 - 1)%Z with (qlog2 a + -53)%Z by lia.
    rewrite pow2_add.
    apply (Qmult_le_compat_r _ _ (pow2 (-53))) in H; lra.
Qed.

Lemma rnd_pos_nonneg (a : Q) : 0 < a -> 0 <= rnd_pos a.
Proof.
  intros Ha. rewrite rnd_pos_eq. apply Qmult_le_0_compat.
  - change 0 with (inject_Z 0). rewrite <- Zle_Qle. apply (mant_bounds a Ha).
  - apply Qlt_le_weak, pow2_pos.
Qed.

Lemma rnd_pos_le_top (a : Q) : 0 < a -> rnd_pos a <= pow2 (53 + rnd_exp a).
Proof.
  intros Ha. rewrite rnd_pos_eq, pow2_add. apply Qmult_le_compat_r.
  - rewrite (pow2_Z 53) by lia. rewrite <- Zle_Qle. apply (mant_bounds a Ha).
  - apply Qlt_le_weak, pow2_pos.
Qed.

Lemma rnd_pos_ge_norm (a : Q) : 0 < a -> rnd_exp a = (qlog2 a - 52)%Z ->
  pow2 (qlog2 a) <= rnd_pos a.
Proof.
  intros Ha E. rewrite rnd_pos_eq.
  replace (qlog2 a) with (52 + rnd_exp a)%Z at 1 by lia.
  rewrite pow2_add. apply Qmult_le_compat_r; [| apply Qlt_le_weak, pow2_pos].
  rewrite pow2_Z by lia. rewrite <- Zle_Qle. apply round_even_ge_Z.
  rewrite <- pow2_Z by lia. apply Qle_shift_div_l; [apply pow2_pos |].
  rewrite <- pow2_add. replace (52 + rnd_exp a)%Z with (qlog2 a) by lia.
  apply (qlog2_spec a Ha).
Qed.

Lemma rnd_pos_mono (a b : Q) : 0 < a -> a <= b -> rnd_pos a <= rnd_pos b.
Proof.
  intros Ha Hab.
  assert (Hb : 0 < b) by lra.
  pose proof (qlog2_mono a b Ha Hab) as Hk.
  assert (Hea : (rnd_exp a <= rnd_exp b)%Z) by (unfold rnd_exp; lia).
  destruct (Z.eq_dec (rnd_exp a) (rnd_exp b)) as [E | N].
  - rewrite !rnd_pos_eq, E. apply Qmult_le_compat_r; [| apply Qlt_le_weak, pow2_pos].
    rewrite <- Zle_Qle. apply round_even_mono.
    apply Qmult_le_compat_r; [exact Hab |].
    apply Qinv_le_0_compat, Qlt_le_weak, pow2_pos.
  - assert (Eb : rnd_exp b = (qlog2 b - 52)%Z) by (pose proof (rnd_exp_lb a); unfold rnd_exp in *; lia).
    eapply Qle_trans; [apply rnd_pos_le_top, Ha |].
    eapply Qle_trans; [| apply rnd_pos_ge_norm; [exact Hb | exact Eb]].
    apply pow2_le. lia.
Qed.

Lemma rnd_pos_exact (a : Q) (M E : Z) :
  (0 < M < 2 ^ 53)%Z -> (-1074 <= E)%Z -> a == inject_Z M * pow2 E -> rnd_pos a == a.
Proof.
  intros HM HE Ea.
  assert (Ha : 0 < a).
  { rewrite Ea. apply Qmult_lt_0_compat; [| apply pow2_pos].
    change 0 with (inject_Z 0). rewrite <- Zlt_Qlt. lia. }
  set (j := Z.log2 M).
  assert (Hj : (2 ^ j <= M < 2 ^ Z.succ j)%Z) by (apply Z.log2_spec; lia).
  assert (Hj0 : (0 <= j)%Z) by (apply Z.log2_nonneg).
  assert (Hj52 : (j < 53)%Z).
  { destruct (Z.lt_ge_cases j 53) as [H | H]; [exact H |].
    pose proof (Z.pow_le_mono_r 2 53 j ltac:(lia) H). lia. }
  assert (Hk : qlog2 a = (E + j)%Z).
  { apply qlog2_unique; rewrite Ea.
    - replace (E + j)%Z with (j + E)%Z by lia. rewrite pow2_add.
      apply Qmult_le_compat_r; [| apply Qlt_le_weak, pow2_pos].
      rewrite (pow2_Z j) by lia. rewrite <- Zle_Qle. lia.
    - replace (E + j + 1)%Z with (Z.succ j + E)%Z by lia. rewrite pow2_add.
      apply Qmult_lt_compat_r; [apply pow2_pos |].
      rewrite (pow2_Z (Z.succ j)) by lia. rewrite <- Zlt_Qlt. lia. }
  assert (He : (rnd_exp a <= E)%Z) by (unfold rnd_exp; lia).
  set (e := rnd_exp a) in *.
  assert (Es : a / pow2 e == inject_Z (M * 2 ^ (E - e))).
  { rewrite inject_Z_mult, <- pow2_Z by lia. rewrite Ea.
    replace E with ((E - e) + e)%Z at 1 by lia. rewrite pow2_add.
    field. apply pow2_nz. }
  rewrite rnd_pos_eq. fold e. rewrite (round_even_Qeq _ _ Es), round_even_Z.
  rewrite <- Es. field. apply pow2_nz.
Qed.

Lemma rnd_pos_repr (a : Q) : 0 < a ->
  exists M E, rnd_pos a == inject_Z M * pow2 E /\ (0 <= M < 2 ^ 53)%Z /\ (-1074 <= E)%Z.
Proof.
  intros Ha. pose proof (mant_bounds a Ha) as HM.
  pose proof (rnd_exp_lb a) as HE.
  set (m := round_even (a / pow2 (rnd_exp a))) in *.
  destruct (Z.eq_dec m (2 ^ 53)) as [Em | Nm].
  - exists (2 ^ 52)%Z, (rnd_exp a + 1)%Z. repeat split; try lia.
    rewrite rnd_pos_eq. fold m. rewrite Em, <- (pow2_Z 53), <- (pow2_Z 52) by lia.
    rewrite <- !pow2_add. replace (53 + rnd_exp a)%Z with (52 + (rnd_exp a + 1))%Z by lia.
    reflexivity.
  - exists m, (rnd_exp a). repeat split; try lia. apply rnd_pos_eq.
Qed.

Lemma rnd_pos_Qeq (a b : Q) : 0 < a -> a == b -> rnd_pos a = rnd_pos b.
Proof.
  intros Ha E. unfold rnd_pos, rnd_exp.
  rewrite (qlog2_Qeq a b Ha E).
  apply Qred_complete.
  rewrite (round_even_Qeq (a / pow2 (Z.max (-1074) (qlog2 b - 52)))
                          (b / pow2 (Z.max (-1074) (qlog2 b - 52)))); [reflexivity |].
  rewrite E. reflexivity.
Qed.

(* rnd *)

Lemma Qopp_invol (q : Q) : - - q = q.
Proof. destruct q as [n d]. unfold Qopp. simpl. rewrite Z.opp_involutive. reflexivity. Qed.

Lemma rnd_cases (x : Q) :
  (x == 0 /\ rnd x = 0) \/ (0 < x /\ rnd x = rnd_pos x) \/ (x < 0 /\ rnd x = - rnd_pos (- x)).
Proof.
  unfold rnd. destruct (Qeq_bool x 0) eqn:E.
  - left. split; [apply Qeq_bool_iff, E | reflexivity].
  - apply Qeq_bool_neq in E. destruct (Qle_bool 0 x) eqn:L.
    + right; left. apply Qle_bool_iff in L. split; [| reflexivity].
      destruct (Qlt_le_dec 0 x) as [H | H]; [exact H |]. exfalso. apply E. lra.
    + right; right. split; [| reflexivity].
      destruct (Qlt_le_dec x 0) as [H | H]; [exact H |].
      apply Qle_bool_iff in H. congruence.
Qed.

Lemma rnd_0 : rnd 0 = 0.
Proof. reflexivity. Qed.

Lemma rnd_Qeq (x y : Q) : x == y -> rnd x = rnd y.
Proof.
  intros E.
  destruct (rnd_cases x) as [[Hx ->] | [[Hx ->] | [Hx ->]]];
  destruct (rnd_cases y) as [[Hy ->] | [[Hy ->] | [Hy ->]]];
  try reflexivity; try (exfalso; lra).
  - apply rnd_pos_Qeq; assumption.
  - f_equal. apply rnd_pos_Qeq; [lra | rewrite E; reflexivity].
Qed.

Lemma rnd_opp (x : Q) : rnd (- x) = - rnd x.
Proof.
  destruct (rnd_cases x) as [[Hx ->] | [[Hx ->] | [Hx ->]]].
  - rewrite (rnd_Qeq (- x) 0) by lra. reflexivity.
  - destruct (rnd_cases (- x)) as [[H ->] | [[H ->] | [H ->]]]; try (exfalso; lra).
    f_equal. apply rnd_pos_Qeq; [lra |]. rewrite Qopp_invol. reflexivity.
  - destruct (rnd_cases (- x)) as [[H ->] | [[H ->] | [H ->]]]; try (exfalso; lra).
    rewrite Qopp_invol. reflexivity.
Qed.

Lemma rnd_nonneg (x : Q) : 0 <= x -> 0 <= rnd x.
Proof.
  intros H. destruct (rnd_cases x) as [[Hx ->] | [[Hx ->] | [Hx ->]]].
  - lra.
  - apply rnd_pos_nonneg, Hx.
  - exfalso. lra.
Qed.

Lemma rnd_nonpos (x : Q) : x <= 0 -> rnd x <= 0.
Proof.
  intros H. pose proof (rnd_nonneg (- x) ltac:(lra)) as H'.
  rewrite rnd_opp in H'. lra.
Qed.

Lemma rnd_mono (x y : Q) : x <= y -> rnd x <= rnd y.
Proof.
  intros Hxy.
  destruct (rnd_cases x) as [[Hx Ex] | [[Hx Ex] | [Hx Ex]]].
  - rewrite Ex. apply rnd_nonneg. lra.
  - destruct (rnd_cases y) as [[Hy Ey] | [[Hy Ey] | [Hy Ey]]]; try (exfalso; lra).
    rewrite Ex, Ey. apply rnd_pos_mono; assumption.
  - destruct (Qlt_le_dec y 0) as [Hy | Hy].
    + destruct (rnd_cases y) as [[Hy' Ey] | [[Hy' Ey] | [Hy' Ey]]]; try (exfalso; lra).
      rewrite Ex, Ey. apply Qopp_le_compat, rnd_pos_mono; lra.
    + eapply Qle_trans; [apply rnd_nonpos; lra | apply rnd_nonneg, Hy].
Qed.

Lemma rnd_err (x : Q) : Qabs (rnd x - x) <= Qabs x * pow2 (-53) + pow2 (-1075).
Proof.
  pose proof (pow2_pos (-1075)).
  destruct (rnd_cases x) as [[Hx ->] | [[Hx ->] | [Hx ->]]].
  - rewrite Hx. change (Qabs (0 - 0)) with 0. change (Qabs 0) with 0. rewrite Qmult_0_l. lra.
  - rewrite (Qabs_pos x) by lra. apply Qabs_Qle_condition.
    destruct (rnd_pos_err x Hx). pose proof (exp_bound x Hx). split; lra.
  - rewrite (Qabs_neg x) by lra. apply Qabs_Qle_condition.
    assert (H0 : 0 < - x) by lra.
    destruct (rnd_pos_err (- x) H0). pose proof (exp_bound (- x) H0). split; lra.
Qed.

Lemma rnd_repr (x : Q) :
  exists M E, rnd x == inject_Z M * pow2 E /\ (Z.abs M < 2 ^ 53)%Z /\ (-1074 <= E)%Z.
Proof.
  destruct (rnd_cases x) as [[Hx ->] | [[Hx ->] | [Hx ->]]].
  - exists 0%Z, 0%Z. split; [reflexivity | lia].
  - destruct (rnd_pos_repr x Hx) as (M & E & H & HM & HE).
    exists M, E. split; [exact H | lia].
  - destruct (rnd_pos_repr (- x) ltac:(lra)) as (M & E & H & HM & HE).
    exists (- M)%Z, E. split; [| lia]. rewrite H, inject_Z_opp. ring.
Qed.

Lemma rnd_exact_Qeq (x : Q) (M E : Z) :
  (Z.abs M < 2 ^ 53)%Z -> (-1074 <= E)%Z -> x == inject_Z M * pow2 E -> rnd x == x.
Proof.
  intros HM HE Ex.
  destruct (rnd_cases x) as [[Hx ->] | [[Hx ->] | [Hx ->]]].
  - rewrite Hx. reflexivity.
  - destruct (Z.lt_trichotomy M 0) as [Hm | [Hm | Hm]].
    + exfalso. assert (inject_Z M < 0) by (change 0 with (inject_Z 0); rewrite <- Zlt_Qlt; lia).
      pose proof (pow2_pos E).
      assert (inject_Z M * pow2 E < 0).
      { setoid_replace (inject_Z M * pow2 E) with (- ((- inject_Z M) * pow2 E)) by ring.
        assert (0 < - inject_Z M * pow2 E) by (apply Qmult_lt_0_compat; lra). lra. }
      lra.
    + subst M. exfalso. rewrite Ex in Hx. change (inject_Z 0) with 0 in Hx; rewrite Qmult_0_l in Hx. lra.
    + apply (rnd_pos_exact x M E); [lia | exact HE | exact Ex].
  - destruct (Z.lt_trichotomy M 0) as [Hm | [Hm | Hm]].
    + rewrite (rnd_pos_exact (- x) (- M) E); [ring | lia | exact HE |].
      rewrite Ex, inject_Z_opp. ring.
    + subst M. exfalso. rewrite Ex in Hx. change (inject_Z 0) with 0 in Hx; rewrite Qmult_0_l in Hx. lra.
    + exfalso. assert (0 < inject_Z M) by (change 0 with (inject_Z 0); rewrite <- Zlt_Qlt; lia).
      pose proof (pow2_pos E).
      assert (0 < inject_Z M * pow2 E) by (apply Qmult_lt_0_compat; lra). lra.
Qed.

Lemma rnd_red (x : Q) : Qred (rnd x) = rnd x.
Proof.
  destruct (rnd_cases x) as [[Hx ->] | [[Hx ->] | [Hx ->]]].
  - reflexivity.
  - apply Qcanon.Qred_involutive.
  - rewrite Qred_opp. f_equal. apply Qcanon.Qred_involutive.
Qed.

Lemma rnd_canon (x y : Q) : rnd x == y -> Qred y = y -> rnd x = y.
Proof.
  intros E R. rewrite <- (rnd_red x), <- R. apply Qred_complete, E.
Qed.

Lemma rnd_exact (x : Q) (M E : Z) :
  (Z.abs M < 2 ^ 53)%Z -> (-1074 <= E)%Z -> x == inject_Z M * pow2 E -> rnd x = Qred x.
Proof.
  intros HM HE Ex. rewrite <- (rnd_red x). apply Qred_complete.
  apply (rnd_exact_Qeq x M E); assumption.
Qed.

Lemma rnd_idem (x : Q) : rnd (rnd x) = rnd x.
Proof.
  destruct (rnd_repr x) as (M & E & H & HM & HE).
  rewrite (rnd_exact (rnd x) M E HM HE H). apply rnd_red.
Qed.

Lemma Qred_Z (z : Z) : Qred (inject_Z z) = inject_Z z.
Proof. apply Qcanon.Qred_identity. simpl. apply Z.gcd_1_r. Qed.

Lemma rnd_Z (z : Z) : (Z.abs z < 2 ^ 53)%Z -> rnd (inject_Z z) = inject_Z z.
Proof.
  intros Hz. rewrite (rnd_exact (inject_Z z) z 0 Hz ltac:(lia)); [apply Qred_Z |].
  change (pow2 0) with 1. ring.
Qed.


(** ** Numbers *)

Lemma Qle_bool_false_lt (x y : Q) : Qle_bool x y = false <-> y < x.
Proof.
  split.
  - intros E. destruct (Qlt_le_dec y x) as [H | H]; [exact H |].
    apply Qle_bool_iff in H. congruence.
  - intros H. destruct (Qle_bool x y) eqn:E; [| reflexivity].
    apply Qle_bool_iff in E. lra.
Qed.

Lemma pow2_m53 : pow2 (-53) == 1 # 9007199254740992.
Proof. reflexivity. Qed.

Lemma pow2_m53_pos : 0 <= pow2 (-53).
Proof. apply Qlt_le_weak, pow2_pos. Qed.

Lemma pow2_m53_le : pow2 (-53) <= 1 # 9000000000000000.
Proof. rewrite pow2_m53. apply Qle_bool_iff. reflexivity. Qed.

Lemma pow2_m1075_pos : 0 <= pow2 (-1075).
Proof. apply Qlt_le_weak, pow2_pos. Qed.

Lemma pow2_m1075_le : pow2 (-1075) <= 1 # 1000000000000000000000000000000.
Proof. apply Qle_bool_iff. vm_compute. reflexivity. Qed.

Lemma pow2_1024_split : pow2 1024 == pow2 1000 * 16777216.
Proof.
  replace 1024%Z with (1000 + 24)%Z by reflexivity.
  rewrite pow2_add. reflexivity.
Qed.

Lemma pow2_1000_ge : 1000000000000000000000000000000000000000 <= pow2 1000.
Proof. apply Qle_bool_iff. vm_compute. reflexivity. Qed.

Lemma rnd_close (x M : Q) :
  Qabs x <= M -> Qabs (rnd x - x) <= M * pow2 (-53) + pow2 (-1075).
Proof.
  intros H. eapply Qle_trans; [apply rnd_err |].
  apply Qplus_le_compat; [| apply Qle_refl].
  apply Qmult_le_compat_r; [exact H | apply pow2_m53_pos].
Qed.

Lemma rnd_abs_bound (x : Q) : Qabs (rnd x) <= 2 * Qabs x + 1.
Proof.
  pose proof (rnd_close x (Qabs x) (Qle_refl _)) as H.
  pose proof pow2_m53_le. pose proof pow2_m1075_le.
  pose proof pow2_m53_pos. pose proof (Qabs_nonneg x).
  assert (Hm : Qabs x * pow2 (-53) <= Qabs x * 1).
  { apply Qmult_le_compat_nonneg; lra. }
  assert (Ht : Qabs (rnd x) <= Qabs (rnd x - x) + Qabs x).
  { setoid_replace (rnd x) with ((rnd x - x) + x) at 1 by ring.
    apply Qabs_triangle. }
  lra.
Qed.

Lemma to_num_fin (x : Q) : Qabs x <= pow2 1000 -> to_num x = Fin (rnd x).
Proof.
  intros H. unfold to_num.
  replace (Qle_bool (pow2 1024) (Qabs (rnd x))) with false; [reflexivity |].
  symmetry. apply Qle_bool_false_lt.
  pose proof (rnd_abs_bound x). pose proof pow2_1000_ge.
  rewrite pow2_1024_split. lra.
Qed.

Lemma to_num_valid (x : Q) : valid (to_num x).
Proof.
  unfold to_num. destruct (Qle_bool (pow2 1024) (Qabs (rnd x))) eqn:E.
  - destruct (Qle_bool 0 x); exact I.
  - split; [apply rnd_idem | apply Qle_bool_false_lt, E].
Qed.

Lemma Qle_bool_Qeq (a x y : Q) : x == y -> Qle_bool a x = Qle_bool a y.
Proof.
  intros E. destruct (Qle_bool a y) eqn:Ey.
  - apply Qle_bool_iff. apply Qle_bool_iff in Ey. rewrite E. exact Ey.
  - apply Qle_bool_false_lt. apply Qle_bool_false_lt in Ey. rewrite E. exact Ey.
Qed.

Lemma to_num_Qeq (x y : Q) : x == y -> to_num x = to_num y.
Proof.
  intros E. unfold to_num. rewrite (rnd_Qeq x y E), (Qle_bool_Qeq 0 x y E).
  reflexivity.
Qed.

Lemma to_num_0 : to_num 0 = Fin 0.
Proof. vm_compute. reflexivity. Qed.

Lemma to_num_zero (x : Q) : x == 0 -> to_num x = Fin 0.
Proof. intros E. rewrite (to_num_Qeq x 0 E). exact to_num_0. Qed.

Lemma to_num_id (q : Q) : valid (Fin q) -> to_num q = Fin q.
Proof.
  intros [Hr Hb]. unfold to_num. rewrite Hr.
  replace (Qle_bool (pow2 1024) (Qabs q)) with false; [reflexivity |].
  symmetry. apply Qle_bool_false_lt, Hb.
Qed.

Lemma valid_nneg (a : num) : valid a -> valid (nneg a).
Proof.
  destruct a as [q | | |]; cbn [valid nneg]; auto.
  intros [Hr Hb]. split; [rewrite rnd_opp, Hr; reflexivity |].
  rewrite Qabs_opp. exact Hb.
Qed.

Lemma nadd_comm (a b : num) : nadd a b = nadd b a.
Proof.
  destruct a, b; simpl; try reflexivity. apply to_num_Qeq. ring.
Qed.

Lemma nadd_0_l (v : num) : valid v -> nadd (Fin 0) v = v.
Proof.
  destruct v as [q | | |]; simpl; try reflexivity.
  intros Hv. rewrite (to_num_Qeq (0 + q) q) by ring. apply to_num_id, Hv.
Qed.

Lemma nneg_0 : nneg (Fin 0) = Fin 0.
Proof. reflexivity. Qed.

(** [Math.max(x, 0)] of the Number value of a non-positive [x] is 0. *)
Lemma max0_nonpos (x : Q) : x <= 0 -> Math_max2 (to_num x) (Fin 0) = Fin 0.
Proof.
  intros Hx. unfold to_num.
  destruct (Qle_bool (pow2 1024) (Qabs (rnd x))) eqn:E.
  - destruct (Qle_bool 0 x) eqn:Hs; [| reflexivity].
    exfalso. apply Qle_bool_iff in Hs, E.
    rewrite (rnd_Qeq x 0) in E by lra. rewrite rnd_0 in E.
    pose proof (pow2_pos 1024). change (Qabs 0) with 0 in E. lra.
  - pose proof (rnd_nonpos x Hx) as Hr. simpl.
    destruct (Qle_bool 0 (rnd x)) eqn:Hs; [| reflexivity].
    apply Qle_bool_iff in Hs. simpl.
    f_equal. apply rnd_canon; [lra | reflexivity].
Qed.

Lemma nZ_valid (z : Z) : (Z.abs z < 2 ^ 53)%Z -> valid (nZ z).
Proof.
  intros Hz. split; [apply rnd_Z, Hz |].
  assert (E : Qabs (inject_Z z) == inject_Z (Z.abs z)).
  { destruct (Z.abs_spec z) as [[H1 H2] | [H1 H2]]; rewrite H2.
    - apply Qabs_pos. change 0 with (inject_Z 0). rewrite <- Zle_Qle. exact H1.
    - rewrite Qabs_neg; [rewrite inject_Z_opp; reflexivity |].
      change 0 with (inject_Z 0). rewrite <- Zle_Qle. lia. }
  rewrite E. apply (Qlt_le_trans _ (inject_Z (2 ^ 53))).
  - rewrite <- Zlt_Qlt. exact Hz.
  - rewrite <- (pow2_Z 53) by lia. apply pow2_le. lia.
Qed.

Lemma valid_Fin0 : valid (Fin 0).
Proof. apply (nZ_valid 0). reflexivity. Qed.

(** *** Order *)

Lemma lt_Fin (x y : Q) : num_lt (Fin x) (Fin y) = true <-> x < y.
Proof.
  simpl. rewrite Bool.negb_true_iff. apply Qle_bool_false_lt.
Qed.

Lemma le_Fin (x y : Q) : js_le (Fin x) (Fin y) = true <-> x <= y.
Proof.
  simpl. rewrite Bool.negb_involutive. apply Qle_bool_iff.
Qed.

Lemma num_lt_irrefl (a : num) : num_lt a a = false.
Proof.
  destruct a as [q | | |]; try reflexivity.
  simpl. apply Bool.negb_false_iff, Qle_bool_iff, Qle_refl.
Qed.

Lemma js_le_refl (a : num) : a <> NaN -> js_le a a = true.
Proof.
  intros H. destruct a as [q | | |]; try reflexivity; [| congruence].
  apply le_Fin, Qle_refl.
Qed.

Lemma js_le_of_not_lt (a b : num) :
  a <> NaN -> b <> NaN -> num_lt b a = false -> js_le a b = true.
Proof.
  intros Ha Hb H.
  assert (E : js_le a b = negb (num_lt b a)) by (destruct a, b; congruence || reflexivity).
  rewrite E, H. reflexivity.
Qed.

Lemma js_le_NaN_l (b : num) : js_le NaN b = false.
Proof. reflexivity. Qed.

Lemma js_le_NaN_r (a : num) : js_le a NaN = false.
Proof. destruct a; reflexivity. Qed.

Lemma le_le_trans (a b c : num) :
  js_le a b = true -> js_le b c = true -> js_le a c = true.
Proof.
  destruct a as [x | | |], b as [y | | |], c as [z | | |]; intros H1 H2;
    try (apply le_Fin; apply le_Fin in H1; apply le_Fin in H2; lra);
    simpl in *; try discriminate; try reflexivity.
Qed.

Lemma lt_le_trans (a b c : num) :
  num_lt a b = true -> js_le b c = true -> js_le a c = true.
Proof.
  destruct a as [x | | |], b as [y | | |], c as [z | | |]; intros H1 H2;
    try (apply le_Fin; apply lt_Fin in H1; apply le_Fin in H2; lra);
    simpl in *; try discriminate; try reflexivity.
Qed.

Lemma le_lt_trans (a b c : num) :
  js_le a b = true -> num_lt b c = true -> js_le a c = true.
Proof.
  destruct a as [x | | |], b as [y | | |], c as [z | | |]; intros H1 H2;
    try (apply le_Fin; apply le_Fin in H1; apply lt_Fin in H2; lra);
    simpl in *; try discriminate; try reflexivity.
Qed.

Lemma num_lt_not_NaN (a b : num) : num_lt a b = true -> a <> NaN /\ b <> NaN.
Proof. destruct a, b; simpl; intros H; split; congruence. Qed.

Lemma js_le_not_NaN (a b : num) : js_le a b = true -> a <> NaN /\ b <> NaN.
Proof. destruct a, b; simpl; intros H; split; congruence. Qed.

Lemma Math_min2_num (a x : num) :
  a <> NaN -> x <> NaN -> Math_min2 a x = if num_lt x a then x else a.
Proof. destruct a, x; congruence || reflexivity. Qed.

Lemma Math_max2_num (a x : num) :
  a <> NaN -> x <> NaN -> Math_max2 a x = if num_lt a x then x else a.
Proof. destruct a, x; congruence || reflexivity. Qed.

Lemma fold_min_NaN (l : list num) : fold_left Math_min2 l NaN = NaN.
Proof. induction l as [| x l IH]; simpl; auto. Qed.

Lemma fold_max_NaN (l : list num) : fold_left Math_max2 l NaN = NaN.
Proof. induction l as [| x l IH]; simpl; auto. Qed.

Lemma fold_min_has_NaN (l : list num) : forall a,
  In NaN l -> fold_left Math_min2 l a = NaN.
Proof.
  induction l as [| x l IH]; simpl; intros a H; [contradiction |].
  destruct H as [Hx | H].
  - subst x. replace (Math_min2 a NaN) with NaN by (destruct a; reflexivity).
    apply fold_min_NaN.
  - apply IH, H.
Qed.

Lemma fold_max_has_NaN (l : list num) : forall a,
  In NaN l -> fold_left Math_max2 l a = NaN.
Proof.
  induction l as [| x l IH]; simpl; intros a H; [contradiction |].
  destruct H as [Hx | H].
  - subst x. replace (Math_max2 a NaN) with NaN by (destruct a; reflexivity).
    apply fold_max_NaN.
  - apply IH, H.
Qed.

Lemma fold_min_spec (l : list num) : forall a,
  a <> NaN -> ~ In NaN l ->
  (fold_left Math_min2 l a = a \/ In (fold_left Math_min2 l a) l) /\
  js_le (fold_left Math_min2 l a) a = true /\
  (forall y, In y l -> js_le (fold_left Math_min2 l a) y = true).
Proof.
  induction l as [| x l IH]; simpl; intros a Ha Hl.
  - split; [left; reflexivity |]. split; [apply js_le_refl, Ha | tauto].
  - assert (Hx : x <> NaN) by (intros E; apply Hl; left; auto).
    assert (Hl' : ~ In NaN l) by (intros E; apply Hl; right; auto).
    rewrite (Math_min2_num a x Ha Hx).
    destruct (num_lt x a) eqn:Hxa.
    + destruct (IH x Hx Hl') as [Hm [Hmx Hall]].
      split; [right; destruct Hm as [-> | Hm]; auto |].
      split; [eapply le_lt_trans; eauto |].
      intros y [<- | Hy]; auto.
    + destruct (IH a Ha Hl') as [Hm [Hma Hall]].
      split; [destruct Hm as [-> | Hm]; auto |].
      split; [exact Hma |].
      intros y [<- | Hy]; auto.
      eapply le_le_trans; [exact Hma |]. apply js_le_of_not_lt; auto.
Qed.

Lemma fold_max_spec (l : list num) : forall a,
  a <> NaN -> ~ In NaN l ->
  (fold_left Math_max2 l a = a \/ In (fold_left Math_max2 l a) l) /\
  js_le a (fold_left Math_max2 l a) = true /\
  (forall y, In y l -> js_le y (fold_left Math_max2 l a) = true).
Proof.
  induction l as [| x l IH]; simpl; intros a Ha Hl.
  - split; [left; reflexivity |]. split; [apply js_le_refl, Ha | tauto].
  - assert (Hx : x <> NaN) by (intros E; apply Hl; left; auto).
    assert (Hl' : ~ In NaN l) by (intros E; apply Hl; right; auto).
    rewrite (Math_max2_num a x Ha Hx).
    destruct (num_lt a x) eqn:Hax.
    + destruct (IH x Hx Hl') as [Hm [Hxm Hall]].
      split; [right; destruct Hm as [-> | Hm]; auto |].
      split; [eapply lt_le_trans; eauto |].
      intros y [<- | Hy]; auto.
    + destruct (IH a Ha Hl') as [Hm [Ham Hall]].
      split; [destruct Hm as [-> | Hm]; auto |].
      split; [exact Ham |].
      intros y [<- | Hy]; auto.
      eapply le_le_trans; [| exact Ham]. apply js_le_of_not_lt; auto.
Qed.

Lemma Math_min_spec (l : list num) :
  l <> [] -> ~ In NaN l ->
  In (Math_min l) l /\ forall y, In y l -> num_le (Math_min l) y.
Proof.
  intros Hne Hl. unfold Math_min, num_le.
  destruct (fold_min_spec l PInf ltac:(discriminate) Hl) as [Hm [_ Hall]].
  split; [| exact Hall].
  destruct Hm as [Hm | Hm]; [| exact Hm].
  destruct l as [| y l']; [contradiction |].
  specialize (Hall y (or_introl eq_refl)). rewrite Hm in Hall |- *.
  destruct y; simpl in Hall; try discriminate; left; reflexivity.
Qed.

Lemma Math_max_spec (l : list num) :
  l <> [] -> ~ In NaN l ->
  In (Math_max l) l /\ forall y, In y l -> num_le y (Math_max l).
Proof.
  intros Hne Hl. unfold Math_max, num_le.
  destruct (fold_max_spec l NInf ltac:(discriminate) Hl) as [Hm [_ Hall]].
  split; [| exact Hall].
  destruct Hm as [Hm | Hm]; [| exact Hm].
  destruct l as [| y l']; [contradiction |].
  specialize (Hall y (or_introl eq_refl)). rewrite Hm in Hall |- *.
  destruct y; simpl in Hall; try discriminate; left; reflexivity.
Qed.

(** *** Error bounds *)

(** Case split on every [Qmax] of the goal, for [lra]. *)
Ltac qmax_cases :=
  repeat match goal with
  | |- context [Qmax ?x ?y] =>
      let m := fresh "m" in
      let H := fresh "Hm" in
      pose proof (Q.max_spec x y) as H;
      unfold QHasMinMax.max in H;
      set (m := Qmax x y) in *; clearbody m
  end;
  repeat match goal with H : _ \/ _ |- _ => destruct H as [[? ?]|[? ?]] end.

Lemma close_Fin (q : Q) : close (Fin q) q 0.
Proof. exists q. split; [reflexivity | lra]. Qed.

Lemma close_nZ (z : Z) : close (nZ z) (inject_Z z) 0.
Proof. apply close_Fin. Qed.

Lemma close_weaken (a : num) (x e e' : Q) : close a x e -> e <= e' -> close a x e'.
Proof. intros [q [-> [H1 H2]]] H. exists q. split; [reflexivity | lra]. Qed.

Lemma close_Qeq (a : num) (x x' e : Q) : x == x' -> close a x e -> close a x' e.
Proof. intros E [q [-> [H1 H2]]]. exists q. split; [reflexivity |]. rewrite <- E. lra. Qed.

Lemma close_nonneg (a : num) (x e : Q) : close a x e -> 0 <= e.
Proof. intros [q [_ [H1 H2]]]. lra. Qed.

Lemma close_to_num (x M : Q) :
  - M <= x -> x <= M -> M <= pow2 1000 ->
  close (to_num x) x (M * pow2 (-53) + pow2 (-1075)).
Proof.
  intros H1 H2 H3.
  assert (Hx : Qabs x <= M) by (apply Qabs_Qle_condition; lra).
  rewrite to_num_fin by lra. exists (rnd x). split; [reflexivity |].
  apply rnd_close, Qabs_Qle_condition in Hx. lra.
Qed.

Lemma close_add (a b : num) (x y e1 e2 M : Q) :
  close a x e1 -> close b y e2 ->
  - M <= x + y - e1 - e2 -> x + y + e1 + e2 <= M -> M <= pow2 1000 ->
  close (nadd a b) (x + y) (e1 + e2 + (M * pow2 (-53) + pow2 (-1075))).
Proof.
  intros [q1 [-> [A1 A2]]] [q2 [-> [B1 B2]]] H1 H2 H3. cbn [nadd].
  destruct (close_to_num (q1 + q2) M ltac:(lra) ltac:(lra) H3) as [q [Eq [C1 C2]]].
  exists q. split; [exact Eq | lra].
Qed.

Lemma close_neg (a : num) (x e : Q) : close a x e -> close (nneg a) (- x) e.
Proof. intros [q [-> [A1 A2]]]. exists (- q). split; [reflexivity | lra]. Qed.

Lemma close_sub (a b : num) (x y e1 e2 M : Q) :
  close a x e1 -> close b y e2 ->
  - M <= x - y - e1 - e2 -> x - y + e1 + e2 <= M -> M <= pow2 1000 ->
  close (nsub a b) (x - y) (e1 + e2 + (M * pow2 (-53) + pow2 (-1075))).
Proof.
  intros Ha Hb H1 H2 H3. unfold nsub.
  apply (close_Qeq _ (x + - y)); [ring |].
  apply close_add; [exact Ha | apply close_neg, Hb | lra | lra | exact H3].
Qed.

Lemma close_max0 (a : num) (x e : Q) :
  close a x e -> close (Math_max2 a (Fin 0)) (Qmax x 0) e.
Proof.
  intros [q [-> [A1 A2]]]. simpl.
  destruct (Qle_bool 0 q) eqn:E; simpl.
  - apply Qle_bool_iff in E. exists q. split; [reflexivity |]. qmax_cases; lra.
  - apply Qle_bool_false_lt in E. exists 0. split; [reflexivity |]. qmax_cases; lra.
Qed.

Lemma close_mul100 (a : num) (x e M : Q) :
  close a x e ->
  - M <= 100 * x - 100 * e -> 100 * x + 100 * e <= M -> M <= pow2 1000 ->
  close (nmul a (Fin 100)) (100 * x) (100 * e + (M * pow2 (-53) + pow2 (-1075))).
Proof.
  intros [q [-> [A1 A2]]] H1 H2 H3. cbn [nmul].
  destruct (close_to_num (q * 100) M ltac:(lra) ltac:(lra) H3) as [r [Er [C1 C2]]].
  exists r. split; [exact Er | lra].
Qed.

Lemma close_round (a : num) (x e : Q) :
  close a x e ->
  exists n : Z, Math_round a = Fin (inject_Z n) /\
    x - e - (1 # 2) <= inject_Z n /\ inject_Z n <= x + e + (1 # 2).
Proof.
  intros [q [-> [A1 A2]]]. exists (Qfloor (q + (1 # 2))). split; [reflexivity |].
  pose proof (Qfloor_le (q + (1 # 2))). pose proof (Qlt_floor (q + (1 # 2))).
  rewrite inject_Z_plus in H0. change (inject_Z 1) with 1 in H0. lra.
Qed.

Lemma Qdiv_100 (x : Q) : x / 100 == x * (1 # 100).
Proof. reflexivity. Qed.

(** [Math.round(a * 100) / 100] of a Number [a] within [e] of [x]: the
    Number value of [n / 100] for an integer [n] within half a unit (and
    the rounding errors) of [100 x]. *)
Lemma round_cents_close (a : num) (x e M : Q) :
  close a x e ->
  - M <= 100 * x - 100 * e -> 100 * x + 100 * e <= M -> M <= pow2 1000 ->
  exists n : Z, round_cents a = to_num (inject_Z n / 100) /\
    x - (e + (M * pow2 (-53) + pow2 (-1075)) * (1 # 100) + (1 # 200))
      <= inject_Z n / 100 /\
    inject_Z n / 100
      <= x + (e + (M * pow2 (-53) + pow2 (-1075)) * (1 # 100) + (1 # 200)).
Proof.
  intros Ha H1 H2 H3.
  destruct (close_round _ _ _ (close_mul100 a x e M Ha H1 H2 H3)) as [n [En [B1 B2]]].
  exists n. unfold round_cents. rewrite En. split; [reflexivity |].
  rewrite Qdiv_100. split; lra.
Qed.


(** ** [parseFloat] *)

Lemma inf_of_valid (b : bool) : valid (inf_of b).
Proof. destruct b; exact I. Qed.

Lemma decimal_to_num_valid (neg : bool) (m e : Z) : valid (decimal_to_num neg m e).
Proof.
  unfold decimal_to_num.
  destruct (m =? 0)%Z; [apply valid_Fin0 |].
  destruct (309 <=? e)%Z; [apply inf_of_valid |].
  destruct (Z.log2 m + 1076 <=? -3 * e)%Z; [apply valid_Fin0 | apply to_num_valid].
Qed.

(** Every Number [parseFloat] returns is one the code can hold. *)
Lemma parseFloat_valid (s : jstr) : valid (parseFloat s).
Proof.
  unfold parseFloat.
  destruct (read_sign (drop_space s)) as [neg s1].
  destruct (is_prefix (js "Infinity") s1); [apply inf_of_valid |].
  destruct (read_digits s1 0 0) as [[ip n1] s2].
  destruct (match s2 with
            | [] => (0%Z, 0%nat, s2)
            | c :: r => if (c =? 46)%N then read_digits r 0 0 else (0%Z, 0%nat, s2)
            end) as [[fp n2] s3].
  destruct (n1 + n2 =? 0)%nat; [exact I | apply decimal_to_num_valid].
Qed.

Lemma rnd_tiny_pos (a : Q) : 0 < a -> a < pow2 (-1075) -> rnd_pos a = 0.
Proof.
  intros Ha Hs.
  destruct (qlog2_spec a Ha) as [Hl _].
  assert (Hq : (qlog2 a < -1075)%Z) by (apply pow2_lt_inv; lra).
  assert (He : rnd_exp a = (-1074)%Z) by (unfold rnd_exp; lia).
  assert (Hr1 : 0 < a / pow2 (-1074)).
  { apply Qlt_shift_div_l; [apply pow2_pos | rewrite Qmult_0_l; exact Ha]. }
  assert (Hr2 : a / pow2 (-1074) < 1 # 2).
  { apply Qlt_shift_div_r; [apply pow2_pos |].
    pose proof (pow2_pred (-1074)) as P. simpl Z.sub in P. lra. }
  destruct (round_even_err (a / pow2 (-1074))) as [M1 M2].
  assert (Hm : round_even (a / pow2 (-1074)) = 0%Z).
  { assert (A : inject_Z (round_even (a / pow2 (-1074))) < inject_Z 1)
      by (change (inject_Z 1) with 1; lra).
    assert (B : inject_Z (-1) < inject_Z (round_even (a / pow2 (-1074))))
      by (change (inject_Z (-1)) with (-1); lra).
    rewrite <- Zlt_Qlt in A, B. lia. }
  unfold rnd_pos. rewrite He, Hm.
  transitivity (Qred 0); [apply Qred_complete; ring | reflexivity].
Qed.

(** A real below half the least subnormal rounds to 0. *)
Lemma rnd_tiny (x : Q) : Qabs x < pow2 (-1075) -> rnd x = 0.
Proof.
  intros Hx.
  destruct (rnd_cases x) as [[H ->] | [[H ->] | [H ->]]].
  - reflexivity.
  - rewrite Qabs_pos in Hx by lra. apply rnd_tiny_pos; assumption.
  - rewrite Qabs_neg in Hx by lra. rewrite rnd_tiny_pos by lra. reflexivity.
Qed.

Lemma to_num_tiny (x : Q) : Qabs x < pow2 (-1075) -> to_num x = Fin 0.
Proof. intros Hx. unfold to_num. rewrite (rnd_tiny x Hx). reflexivity. Qed.

Lemma rnd_pow2_1024 : rnd (pow2 1024) == pow2 1024.
Proof. apply (rnd_exact_Qeq _ 1 1024); [reflexivity | lia | ring]. Qed.

(** A real of magnitude at least 2^1024 is an infinity. *)
Lemma to_num_big (x : Q) : pow2 1024 <= Qabs x -> to_num x = inf_of (Qle_bool 0 x).
Proof.
  intros Hx. unfold to_num.
  replace (Qle_bool (pow2 1024) (Qabs (rnd x))) with true; [reflexivity |].
  symmetry. apply Qle_bool_iff.
  pose proof rnd_pow2_1024 as R.
  destruct (Qlt_le_dec x 0) as [Hn | Hn].
  - rewrite Qabs_neg in Hx by lra.
    pose proof (rnd_mono x (- pow2 1024) ltac:(lra)) as H.
    rewrite rnd_opp in H.
    apply (Qle_trans _ (- rnd x)); [lra |].
    rewrite <- Qabs_opp. apply Qle_Qabs.
  - rewrite Qabs_pos in Hx by lra.
    pose proof (rnd_mono (pow2 1024) x Hx) as H.
    apply (Qle_trans _ (rnd x)); [lra | apply Qle_Qabs].
Qed.

Lemma Q10_pow_nonneg (k : Z) : (0 <= k)%Z -> Qpower 10 k == inject_Z (10 ^ k).
Proof. intros Hk. symmetry. apply (Zpower_Qpower 10 k Hk). Qed.

Lemma Qabs_sign_mul (neg : bool) (A : Q) :
  0 <= A -> Qabs ((if neg then -1 else 1) * A) == A.
Proof.
  intros HA. destruct neg.
  - setoid_replace (-1 * A) with (- A) by ring. rewrite Qabs_opp. apply Qabs_pos, HA.
  - setoid_replace (1 * A) with A by ring. apply Qabs_pos, HA.
Qed.

(** The shortcuts of [decimal_to_num] agree with the rounding of the
    exact decimal. *)
Lemma decimal_to_num_spec (neg : bool) (m e : Z) :
  (0 <= m)%Z ->
  decimal_to_num neg m e = to_num ((if neg then -1 else 1) * inject_Z m * Qpower 10 e).
Proof.
  intros Hm0. unfold decimal_to_num.
  destruct (Z.eqb_spec m 0) as [-> | Hm].
  { symmetry. apply to_num_zero. change (inject_Z 0) with 0. ring. }
  assert (Hpos : (1 <= m)%Z) by lia.
  set (v := (if neg then -1 else 1) * inject_Z m * Qpower 10 e).
  assert (Hv : v == (if neg then -1 else 1) * (inject_Z m * Qpower 10 e)) by (unfold v; ring).
  destruct (Z.leb_spec 309 e) as [He | He].
  - assert (HA : inject_Z (2 ^ 1024) <= inject_Z m * Qpower 10 e).
    { rewrite Q10_pow_nonneg by lia. rewrite <- inject_Z_mult, <- Zle_Qle.
      assert (H1 : (10 ^ 309 <= 10 ^ e)%Z) by (apply Z.pow_le_mono_r; lia).
      assert (H2 : (2 ^ 1024 <= 10 ^ 309)%Z) by (apply Z.leb_le; reflexivity).
      assert (H3 : (0 <= 10 ^ e)%Z) by (apply Z.pow_nonneg; lia).
      nia. }
    rewrite <- (pow2_Z 1024) in HA by lia.
    assert (Hab : Qabs v == inject_Z m * Qpower 10 e).
    { rewrite Hv. apply Qabs_sign_mul. pose proof (pow2_pos 1024). lra. }
    rewrite (to_num_big v) by (rewrite Hab; exact HA).
    f_equal. pose proof (pow2_pos 1024).
    destruct neg.
    + simpl. symmetry. apply Qle_bool_false_lt. rewrite Hv. lra.
    + simpl. symmetry. apply Qle_bool_iff. rewrite Hv. lra.
  - destruct (Z.leb_spec (Z.log2 m + 1076) (-3 * e)) as [Ht | Ht]; [| reflexivity].
    symmetry. apply to_num_tiny.
    pose proof (Z.log2_nonneg m) as L0.
    destruct (Z.log2_spec m ltac:(lia)) as [_ L1].
    set (k := (- e)%Z).
    assert (Hk : (0 < k)%Z) by lia.
    assert (HT : (m * 2 ^ 1075 < 10 ^ k)%Z).
    { assert (A1 : (m * 2 ^ 1075 < 2 ^ Z.succ (Z.log2 m) * 2 ^ 1075)%Z).
      { apply Z.mul_lt_mono_pos_r; [apply Z.pow_pos_nonneg; lia | exact L1]. }
      rewrite <- Z.pow_add_r in A1 by lia.
      assert (A2 : (2 ^ (Z.succ (Z.log2 m) + 1075) <= 2 ^ (3 * k))%Z)
        by (apply Z.pow_le_mono_r; lia).
      rewrite Z.pow_mul_r in A2 by lia.
      assert (A3 : ((2 ^ 3) ^ k <= 10 ^ k)%Z) by (apply Z.pow_le_mono_l; lia).
      lia. }
    assert (Hab : Qabs v == inject_Z m * Qpower 10 e).
    { rewrite Hv. apply Qabs_sign_mul.
      apply Qmult_le_0_compat; [change 0 with (inject_Z 0); rewrite <- Zle_Qle; lia |].
      replace e with (- k)%Z by lia. rewrite Qpower_opp, Q10_pow_nonneg by lia.
      apply Qlt_le_weak, Qinv_lt_0_compat.
      change 0 with (inject_Z 0). rewrite <- Zlt_Qlt. apply Z.pow_pos_nonneg; lia. }
    rewrite Hab. replace e with (- k)%Z by lia.
    rewrite Qpower_opp, Q10_pow_nonneg by lia.
    change (pow2 (-1075)) with (pow2 (Z.opp 1075)). rewrite pow2_opp, pow2_Z by lia.
    assert (P1 : (0 < 10 ^ k)%Z) by (apply Z.pow_pos_nonneg; lia).
    assert (P2 : (0 < 2 ^ 1075)%Z) by (apply Z.pow_pos_nonneg; lia).
    set (T := (10 ^ k)%Z) in *. set (P := (2 ^ 1075)%Z) in *.
    assert (ET : inject_Z m * / inject_Z T == m # Z.to_pos T).
    { rewrite Qmake_Qdiv. rewrite Z2Pos.id by lia. reflexivity. }
    assert (EP : / inject_Z P == 1 # Z.to_pos P).
    { rewrite Qmake_Qdiv. rewrite Z2Pos.id by lia. reflexivity. }
    rewrite ET, EP. unfold Qlt. simpl. rewrite !Z2Pos.id by lia. lia.
Qed.


(** *** Decimal formatting read back by [parseFloat] *)

Lemma js_app (a b : string) : js (a ++ b) = js a ++ js b.
Proof. induction a as [| x a IH]; simpl; [reflexivity |]. unfold js in *. simpl. now rewrite IH. Qed.

Lemma js_cons (a : ascii) (s : string) : js (String a s) = N_of_ascii a :: js s.
Proof. reflexivity. Qed.

Lemma digit_props (d : Z) (t : jstr) :
  (0 <= d < 10)%Z ->
  digit_val (N_of_ascii (digit_char d)) = Some d /\
  is_js_space (N_of_ascii (digit_char d)) = false /\
  read_sign (N_of_ascii (digit_char d) :: t) = (false, N_of_ascii (digit_char d) :: t) /\
  is_prefix (js "Infinity") (N_of_ascii (digit_char d) :: t) = false.
Proof.
  intros Hd.
  assert (d = 0 \/ d = 1 \/ d = 2 \/ d = 3 \/ d = 4 \/ d = 5 \/ d = 6 \/ d = 7
          \/ d = 8 \/ d = 9)%Z as Hc by lia.
  repeat destruct Hc as [-> | Hc]; try (subst; repeat split; reflexivity).
Qed.

Lemma read_digits_stop (s : jstr) (a : Z) (c : nat) :
  (forall ch r, s = ch :: r -> digit_val ch = None) ->
  read_digits s a c = (a, c, s).
Proof.
  intros H. destruct s as [| ch r]; [reflexivity |].
  simpl. now rewrite (H ch r eq_refl).
Qed.

Lemma read_digits_digit (d : Z) (r : jstr) (a : Z) (c : nat) :
  (0 <= d < 10)%Z ->
  read_digits (N_of_ascii (digit_char d) :: r) a c = read_digits r (a * 10 + d)%Z (S c).
Proof.
  intros Hd. cbn [read_digits]. now rewrite (proj1 (digit_props d r Hd)).
Qed.

Lemma dec_aux_app (fuel : nat) (n : Z) (acc r : string) :
  (dec_aux fuel n acc ++ r)%string = dec_aux fuel n (acc ++ r).
Proof.
  revert n acc. induction fuel as [| f IH]; intros n acc; simpl; [reflexivity |].
  destruct (n <? 10)%Z; [reflexivity |]. apply (IH (n / 10)%Z (String _ acc)).
Qed.

Lemma dec_aux_head (f : nat) (n : Z) (acc : string) :
  exists d r, (0 <= d < 10)%Z /\ dec_aux (S f) n acc = String (digit_char d) r.
Proof.
  revert n acc. induction f as [| f IH]; intros n acc.
  - exists (n mod 10)%Z. simpl. destruct (n <? 10)%Z; eexists; split;
      try reflexivity; apply Z.mod_pos_bound; lia.
  - simpl dec_aux. destruct (n <? 10)%Z.
    + exists (n mod 10)%Z, acc. split; [apply Z.mod_pos_bound; lia | reflexivity].
    + apply IH.
Qed.

Lemma read_dec_aux (fuel : nat) (n : Z) (acc : string) (a : Z) (c : nat) :
  (0 <= n < 10 ^ Z.of_nat fuel)%Z ->
  exists k, read_digits (js (dec_aux fuel n acc)) a c
            = read_digits (js acc) (a * 10 ^ Z.of_nat k + n)%Z (c + k)%nat.
Proof.
  revert n acc a c. induction fuel as [| f IH]; intros n acc a c Hn.
  - simpl in Hn. exists O. cbn [dec_aux].
    change (10 ^ Z.of_nat 0)%Z with 1%Z. rewrite Nat.add_0_r. f_equal. lia.
  - assert (Hm : (0 <= n mod 10 < 10)%Z) by (apply Z.mod_pos_bound; lia).
    pose proof (Z.div_mod n 10) as Hdm.
    simpl dec_aux. destruct (Z.ltb_spec n 10) as [Hlt | Hge].
    + exists 1%nat. rewrite js_cons, (read_digits_digit _ _ _ _ Hm).
      rewrite Z.mod_small by lia. f_equal; lia.
    + assert (Hq : (0 <= n / 10 < 10 ^ Z.of_nat f)%Z).
      { split; [apply Z.div_pos; lia |].
        rewrite Nat2Z.inj_succ, Z.pow_succ_r in Hn by lia.
        apply Z.div_lt_upper_bound; lia. }
      destruct (IH (n / 10)%Z (String (digit_char (n mod 10)) acc) a c Hq)
        as [k Hk].
      rewrite Hk. exists (S k). rewrite js_cons, (read_digits_digit _ _ _ _ Hm).
      rewrite Nat2Z.inj_succ, Z.pow_succ_r by lia.
      f_equal; nia.
Qed.

Lemma Z_to_dec_fuel (n : Z) :
  (0 <= n)%Z -> (n < 10 ^ Z.of_nat (S (Z.to_nat (Z.log2 n))))%Z.
Proof.
  intros Hn. rewrite Nat2Z.inj_succ, Z2Nat.id by apply Z.log2_nonneg.
  destruct (Z.eq_dec n 0) as [-> | Hn0]; [reflexivity |].
  destruct (Z.log2_spec n) as [_ Hlt]; [lia |].
  eapply Z.lt_le_trans; [exact Hlt |].
  apply Z.pow_le_mono_l. split; [lia | lia].
Qed.

Lemma read_Z_to_dec (m : Z) (s : string) :
  (0 <= m)%Z -> (forall ch r, js s = ch :: r -> digit_val ch = None) ->
  exists k, read_digits (js (Z_to_dec m ++ s)) 0 0 = (m, k, js s).
Proof.
  intros Hm Hs. unfold Z_to_dec. rewrite dec_aux_app. simpl append.
  destruct (read_dec_aux (S (Z.to_nat (Z.log2 m))) m s 0 0) as [k Hk].
  - split; [exact Hm | now apply Z_to_dec_fuel].
  - exists k. rewrite Hk, read_digits_stop by exact Hs. reflexivity.
Qed.

Lemma read_two_digits (m : Z) (s : string) :
  (0 <= m < 100)%Z -> (forall ch r, js s = ch :: r -> digit_val ch = None) ->
  read_digits (js (two_digits m ++ s)) 0 0 = (m, 2%nat, js s).
Proof.
  intros Hm Hs. unfold two_digits. simpl append. rewrite !js_cons.
  assert (H1 : (0 <= m / 10 < 10)%Z).
  { split; [apply Z.div_pos; lia | apply Z.div_lt_upper_bound; lia]. }
  assert (H2 : (0 <= m mod 10 < 10)%Z) by (apply Z.mod_pos_bound; lia).
  rewrite (read_digits_digit _ _ _ _ H1), (read_digits_digit _ _ _ _ H2).
  rewrite read_digits_stop by exact Hs.
  pose proof (Z.div_mod m 10). f_equal. f_equal. lia.
Qed.

(** The text [pre ++ digits(n/100) ++ "." ++ two digits of n mod 100 ++ rest]
    ([pre] a sign or nothing, [rest] empty or ["%"]) parses to the Number
    value of [±n/100]. *)
Lemma parseFloat_fixed2 (pre rest : string) (sg n : Z) :
  (0 <= n)%Z ->
  (pre = ""%string /\ sg = 1%Z \/ pre = "+"%string /\ sg = 1%Z \/
   pre = "-"%string /\ sg = (-1)%Z) ->
  (rest = ""%string \/ rest = "%"%string) ->
  parseFloat (js (pre ++ Z_to_dec (n / 100) ++ "." ++ two_digits (n mod 100) ++ rest))
  = to_num (inject_Z (sg * n) / inject_Z 100).
Proof.
  intros Hn Hpre Hrest.
  assert (Hq : (0 <= n / 100)%Z) by (apply Z.div_pos; lia).
  assert (Hm : (0 <= n mod 100 < 100)%Z) by (apply Z.mod_pos_bound; lia).
  assert (Hrs : forall ch r, js rest = ch :: r -> digit_val ch = None).
  { destruct Hrest as [-> | ->]; intros ch r E; [discriminate | injection E as <- _; reflexivity]. }
  set (B := (Z_to_dec (n / 100) ++ "." ++ two_digits (n mod 100) ++ rest)%string).
  destruct (read_Z_to_dec (n / 100) ("." ++ two_digits (n mod 100) ++ rest)%string Hq)
    as [k Hk].
  { intros ch r E. simpl append in E. rewrite js_cons in E.
    injection E as E1 _. subst ch. reflexivity. }
  fold B in Hk.
  assert (HB : exists d t, (0 <= d < 10)%Z /\ js B = N_of_ascii (digit_char d) :: t).
  { unfold B, Z_to_dec. rewrite dec_aux_app.
    destruct (dec_aux_head (Z.to_nat (Z.log2 (n / 100))) (n / 100)
                ("" ++ "." ++ two_digits (n mod 100) ++ rest)%string) as [d [r [Hd E]]].
    exists d, (js r). split; [exact Hd | rewrite E; reflexivity]. }
  destruct HB as [d [t [Hd E]]].
  destruct (digit_props d t Hd) as [_ [Hsp [Hrd Hpf]]].
  assert (Hsign : read_sign (drop_space (js (pre ++ B))) = ((sg <? 0)%Z, js B)).
  { destruct Hpre as [[-> ->] | [[-> ->] | [-> ->]]].
    - simpl append. rewrite E. cbn [drop_space]. rewrite Hsp. exact Hrd.
    - reflexivity.
    - reflexivity. }
  assert (Hpref : is_prefix (js "Infinity") (js B) = false) by (rewrite E; exact Hpf).
  assert (Htwo := read_two_digits (n mod 100) rest Hm Hrs).
  assert (Hexp : read_exponent (js rest) = None) by (destruct Hrest as [-> | ->]; reflexivity).
  assert (Hval : (n / 100 * 10 ^ Z.of_nat 2 + n mod 100 = n)%Z).
  { change (10 ^ Z.of_nat 2)%Z with 100%Z. pose proof (Z.div_mod n 100). lia. }
  assert (Hne : (k + 2 =? 0)%nat = false) by (apply Nat.eqb_neq; lia).
  unfold parseFloat. rewrite Hsign. cbv beta iota.
  rewrite Hpref, Hk. cbv beta iota.
  change (("." ++ ?X)%string) with (String "." X). rewrite js_cons.
  change (N_of_ascii ".") with 46%N. rewrite N.eqb_refl. rewrite Htwo.
  cbv beta iota. rewrite Hne, Hexp, Hval.
  rewrite decimal_to_num_spec by exact Hn.
  apply to_num_Qeq. change (0 - Z.of_nat 2)%Z with (-2)%Z.
  change (Qpower 10 (-2)) with (1 # 100).
  rewrite inject_Z_mult, Qdiv_100.
  assert (Hs : (if (sg <? 0)%Z then -1 else 1) == inject_Z sg)
    by (destruct Hpre as [[_ ->] | [[_ ->] | [_ ->]]]; reflexivity).
  rewrite Hs. ring.
Qed.

Lemma fixed2_digits_bounds (x : Q) :
  0 <= x ->
  (0 <= Qfloor (x * 100 + (1 # 2)))%Z /\
  Qabs (inject_Z (Qfloor (x * 100 + (1 # 2))) / inject_Z 100 - x) <= 1 # 200.
Proof.
  intros Hx.
  pose proof (Qfloor_le (x * 100 + (1 # 2))) as Hle.
  pose proof (Qlt_floor (x * 100 + (1 # 2))) as Hlt.
  set (n := Qfloor (x * 100 + (1 # 2))) in *.
  rewrite inject_Z_plus in Hlt. change (inject_Z 1) with 1 in Hlt.
  split.
  - assert (H0 : -1 < inject_Z n) by lra.
    change (-1) with (inject_Z (-1)) in H0. rewrite <- Zlt_Qlt in H0. lia.
  - apply Qabs_Qle_condition.
    assert (E : inject_Z n / inject_Z 100 == inject_Z n * (1 # 100)) by reflexivity.
    rewrite E. split; lra.
Qed.


(** ** The price grid *)

Lemma price_loop_range (f : nat) : forall a p,
  In p (price_loop a f) -> (a <= p <= 120)%Z.
Proof.
  induction f as [| f IH]; intros a p H; simpl in H; [contradiction |].
  destruct (Z.leb_spec a 120) as [Ha | Ha]; [| contradiction].
  destruct H as [<- | H]; [lia |]. apply IH in H. lia.
Qed.

Lemma priceGrid_bounds (p : Z) : In p priceGrid -> (85 <= p <= 120)%Z.
Proof. apply price_loop_range. Qed.

Lemma priceGrid_values :
  priceGrid = map (fun k => 85 + Z.of_nat k)%Z (seq 0 36).
Proof. reflexivity. Qed.

Lemma priceGrid_in (p : Z) : (85 <= p <= 120)%Z -> In p priceGrid.
Proof.
  intros Hp. rewrite priceGrid_values. apply in_map_iff.
  exists (Z.to_nat (p - 85)). split; [lia |]. apply in_seq. lia.
Qed.

Lemma in_generatePayoffData (s : HedgeState) (pt : PayoffPoint) :
  In pt (generatePayoffData s) ->
  In (price pt) priceGrid /\ payoff pt = round_cents (payoff_at s (price pt)).
Proof.
  unfold generatePayoffData. intros H. apply in_map_iff in H as [p [<- Hp]].
  split; [exact Hp | reflexivity].
Qed.

Lemma generatePayoffData_has (s : HedgeState) (p : Z) :
  In p priceGrid ->
  In {| price := p; payoff := round_cents (payoff_at s p) |} (generatePayoffData s).
Proof.
  intros Hp. unfold generatePayoffData.
  apply in_map_iff. exists p. split; [reflexivity | exact Hp].
Qed.

Lemma payoff_at_price_grid (s : HedgeState) (p : Z) :
  In p priceGrid ->
  payoff_at_price (generatePayoffData s) p = Some (round_cents (payoff_at s p)).
Proof.
  intros Hp. unfold payoff_at_price, generatePayoffData.
  induction priceGrid as [| q l IH]; [contradiction |].
  simpl. destruct (Z.eqb_spec q p) as [-> | Hq]; [reflexivity |].
  destruct Hp as [-> | Hp]; [congruence | apply IH, Hp].
Qed.

(** ** Error of the double computation of the payoff *)

Lemma Zabs_Q (z : Z) : (Z.abs z <= 1000000)%Z ->
  -1000000 <= inject_Z z /\ inject_Z z <= 1000000.
Proof.
  intros H. split.
  - change (-1000000) with (inject_Z (-1000000)). rewrite <- Zle_Qle. lia.
  - change 1000000 with (inject_Z 1000000). rewrite <- Zle_Qle. lia.
Qed.

Lemma grid_price_bound (p : Z) : In p priceGrid -> (Z.abs p <= 1000000)%Z.
Proof. intros H. apply priceGrid_bounds in H. lia. Qed.

Lemma pow2_1000_ge_M : 10000000000 <= pow2 1000.
Proof. pose proof pow2_1000_ge. lra. Qed.

Ltac bound_tac :=
  pose proof pow2_m53_pos; pose proof pow2_m53_le;
  pose proof pow2_m1075_pos; pose proof pow2_m1075_le;
  qmax_cases; lra.

Section PayoffError.
Variable s : HedgeState.
Variables pp cp : Q.
Variable p : Z.
Hypothesis Hpp : parseFloat (putPremium s) = Fin pp.
Hypothesis Hcp : has_second_leg s = true -> parseFloat (callPremium s) = Fin cp.
Hypothesis Hp : (Z.abs p <= 1000000)%Z.
Hypothesis HS : (Z.abs (currentPrice s) <= 1000000)%Z.
Hypothesis HK1 : (Z.abs (putStrike s) <= 1000000)%Z.
Hypothesis HK2 : (Z.abs (callStrike s) <= 1000000)%Z.
Hypothesis Hpb : Qabs pp <= 1000000.
Hypothesis Hcb : Qabs cp <= 1000000.

Let M : Q := 10000000.
Let r : Q := M * pow2 (-53) + pow2 (-1075).

Lemma exact_payoff_bound :
  -10000000 <= exact_payoff s pp cp p /\ exact_payoff s pp cp p <= 10000000.
Proof.
  destruct (Zabs_Q _ Hp). destruct (Zabs_Q _ HS). destruct (Zabs_Q _ HK1).
  destruct (Zabs_Q _ HK2).
  apply Qabs_Qle_condition in Hpb, Hcb.
  unfold exact_payoff, stock_leg, long_put, short_call, short_put.
  destruct (jstr_eqb _ (js "collar")); [qmax_cases; lra |].
  destruct (jstr_eqb _ (js "protective_put")); [qmax_cases; lra |].
  destruct (jstr_eqb _ (js "bear_put_spread")); [qmax_cases; lra | lra].
Qed.

Local Ltac side := unfold M in *; qmax_cases; lra.

(** The payoff the code computes before rounding is within [7 r] of the
    exact leg sum. *)
Lemma payoff_at_close :
  close (payoff_at s p) (exact_payoff s pp cp p) (7 * r).
Proof.
  destruct (Zabs_Q _ Hp) as [Hp1 Hp2]. destruct (Zabs_Q _ HS) as [HS1 HS2].
  destruct (Zabs_Q _ HK1) as [HK11 HK12]. destruct (Zabs_Q _ HK2) as [HK21 HK22].
  apply Qabs_Qle_condition in Hpb, Hcb.
  pose proof pow2_1000_ge_M as HM.
  assert (HM' : M <= pow2 1000) by (unfold M; lra).
  assert (Hr : 0 <= r /\ r <= 1 # 100000000) by (unfold r, M; bound_tac).
  set (x := inject_Z p) in *. set (S := inject_Z (currentPrice s)) in *.
  set (K1 := inject_Z (putStrike s)) in *. set (K2 := inject_Z (callStrike s)) in *.
  (* the shared pieces *)
  assert (A : close (nsub (nZ p) (nZ (currentPrice s))) (x - S) (0 + 0 + r)).
  { apply close_sub; [apply close_nZ | apply close_nZ | side | side | exact HM']. }
  assert (B1 : close (nsub (nZ (putStrike s)) (nZ p)) (K1 - x) (0 + 0 + r)).
  { apply close_sub; [apply close_nZ | apply close_nZ | side | side | exact HM']. }
  assert (B : close (nsub (Math_max2 (nsub (nZ (putStrike s)) (nZ p)) (Fin 0)) (Fin pp))
                (Qmax (K1 - x) 0 - pp) (0 + 0 + r + 0 + r)).
  { apply close_sub; [apply close_max0, B1 | apply close_Fin | | | exact HM'];
      side. }
  unfold payoff_at, exact_payoff, stock_leg, long_put, short_call, short_put.
  fold x S K1 K2.
  destruct (jstr_eqb (strategy s) (js "collar")) eqn:Ec.
  { assert (H2 : has_second_leg s = true) by (unfold has_second_leg; rewrite Ec; reflexivity).
    rewrite Hpp, (Hcp H2).
    assert (C1 : close (nsub (nZ p) (nZ (callStrike s))) (x - K2) (0 + 0 + r)).
    { apply close_sub; [apply close_nZ | apply close_nZ | side | side | exact HM']. }
    assert (C : close (nadd (nneg (Math_max2 (nsub (nZ p) (nZ (callStrike s))) (Fin 0))) (Fin cp))
                  (- Qmax (x - K2) 0 + cp) (0 + 0 + r + 0 + r)).
    { apply close_add; [apply close_neg, close_max0, C1 | apply close_Fin | | | exact HM'];
        side. }
    assert (D : close (nadd (nsub (nZ p) (nZ (currentPrice s)))
                         (nsub (Math_max2 (nsub (nZ (putStrike s)) (nZ p)) (Fin 0)) (Fin pp)))
                  (x - S + (Qmax (K1 - x) 0 - pp)) (0 + 0 + r + (0 + 0 + r + 0 + r) + r)).
    { apply close_add; [exact A | exact B | | | exact HM']; side. }
    eapply close_weaken.
    - apply close_add; [exact D | exact C | | | exact HM']; side.
    - unfold r, M; bound_tac. }
  destruct (jstr_eqb (strategy s) (js "protective_put")) eqn:Epp.
  { rewrite Hpp. eapply close_weaken.
    - apply close_add; [exact A | exact B | | | exact HM']; side.
    - unfold r, M; bound_tac. }
  destruct (jstr_eqb (strategy s) (js "bear_put_spread")) eqn:Eb.
  { assert (H2 : has_second_leg s = true)
      by (unfold has_second_leg; rewrite Ec, Eb; reflexivity).
    rewrite Hpp, (Hcp H2).
    assert (C1 : close (nsub (nZ (callStrike s)) (nZ p)) (K2 - x) (0 + 0 + r)).
    { apply close_sub; [apply close_nZ | apply close_nZ | side | side | exact HM']. }
    assert (C : close (nadd (nneg (Math_max2 (nsub (nZ (callStrike s)) (nZ p)) (Fin 0))) (Fin cp))
                  (- Qmax (K2 - x) 0 + cp) (0 + 0 + r + 0 + r)).
    { apply close_add; [apply close_neg, close_max0, C1 | apply close_Fin | | | exact HM'];
        side. }
    eapply close_weaken.
    - apply close_add; [exact B | exact C | | | exact HM']; side.
    - unfold r, M; bound_tac. }
  eapply close_weaken; [apply close_Fin | lra].
Qed.

(** The reported payoff: the double nearest to a whole number of cents
    [n/100], within half a cent and 10^-7 of the exact leg sum. *)
Lemma payoff_rounded :
  exists n : Z, round_cents (payoff_at s p) = to_num (inject_Z n / 100) /\
    Qabs (inject_Z n / 100 - exact_payoff s pp cp p) <= (1 # 200) + (1 # 10000000).
Proof.
  destruct exact_payoff_bound as [X1 X2].
  assert (Hr : 0 <= r /\ r <= 1 # 100000000) by (unfold r, M; bound_tac).
  pose proof pow2_1000_ge_M as HM.
  destruct (round_cents_close _ _ _ 10000000000 payoff_at_close)
    as [n [En [B1 B2]]]; [lra | lra | exact HM |].
  exists n. split; [exact En |].
  apply Qabs_Qle_condition. split; bound_tac.
Qed.

End PayoffError.


(** ** Strategy names *)

Lemma jstr_eqb_eq (a b : jstr) : jstr_eqb a b = true <-> a = b.
Proof.
  revert b. induction a as [| x a IH]; intros [| y b]; simpl;
    try (split; intros H; discriminate || reflexivity).
  rewrite andb_true_iff, N.eqb_eq, IH. split.
  - intros [-> ->]. reflexivity.
  - intros H. injection H as -> ->. auto.
Qed.

Lemma jstr_eqb_neq (a b : jstr) : a <> b -> jstr_eqb a b = false.
Proof.
  intros H. destruct (jstr_eqb a b) eqn:E; [| reflexivity].
  apply jstr_eqb_eq in E. contradiction.
Qed.

Lemma nsub_nZ (a b : Z) : nsub (nZ a) (nZ b) = to_num (inject_Z a - inject_Z b).
Proof. reflexivity. Qed.

Lemma max0_le (a b : Z) :
  (a <= b)%Z -> Math_max2 (nsub (nZ a) (nZ b)) (Fin 0) = Fin 0.
Proof.
  intros H. rewrite nsub_nZ. apply max0_nonpos.
  rewrite Zle_Qle in H. lra.
Qed.

Lemma nsub_nZ_self (a : Z) : nsub (nZ a) (nZ a) = Fin 0.
Proof. rewrite nsub_nZ. apply to_num_zero. ring. Qed.

Lemma nsub_0_l (v : num) : valid v -> nsub (Fin 0) v = nneg v.
Proof. intros Hv. unfold nsub. apply nadd_0_l, valid_nneg, Hv. Qed.

Lemma nadd_nneg0 (v : num) : valid v -> nadd (nneg (Fin 0)) v = v.
Proof. intros Hv. rewrite nneg_0. apply nadd_0_l, Hv. Qed.

Lemma round_cents_0 : round_cents (Fin 0) = Fin 0.
Proof. reflexivity. Qed.

Lemma bear_legs_mono (K1 K2 a b x y : Q) :
  K1 <= K2 -> x <= y ->
  long_put K1 a x + short_put K2 b x <= long_put K1 a y + short_put K2 b y.
Proof. unfold long_put, short_put. intros. qmax_cases; lra. Qed.

Ltac strat_tac :=
  repeat match goal with
  | |- context [jstr_eqb (js ?a) (js ?b)] =>
      let v := eval vm_compute in (jstr_eqb (js a) (js b)) in
      change (jstr_eqb (js a) (js b)) with v
  end; cbv beta iota.

(** ** Named states *)

Definition bearDefault : HedgeState := with_strategy initialState (js "bear_put_spread").
Definition protectiveDefault : HedgeState :=
  with_strategy initialState (js "protective_put").
Definition straddleState : HedgeState := with_strategy initialState (js "straddle").
Definition halfCentCollar : HedgeState := with_putPremium initialState (js "10.005").
Definition lowPutCollar : HedgeState := with_putStrike initialState 50.
Definition abcPremiumCollar : HedgeState := with_putPremium initialState (js "abc").

(** The bear spread reached by selecting it, dragging the strikes to 90
    and 95 and typing a put premium of 0.315. *)
Definition reachedBear : HedgeState := {|
  strategy := js "bear_put_spread"; currentPrice := 100; putStrike := 90;
  callStrike := 95; putPremium := js "0.315"; callPremium := js "10" |}.

(** The Numbers [parseFloat] gives for ["10.005"], and the payoffs the
    code reports for [halfCentCollar] at 85 and 100 and for [reachedBear]
    at 89 and 90. *)
Definition fin_val (a : num) : Q := match a with Fin q => q | _ => 0 end.
Definition pp_10_005 : Q := Eval vm_compute in fin_val (parseFloat (js "10.005")).
Definition halfCent_85 : Q :=
  Eval vm_compute in
    match payoff_at_price (generatePayoffData halfCentCollar) 85 with
    | Some a => fin_val a | None => 0 end.
Definition halfCent_100 : Q :=
  Eval vm_compute in
    match payoff_at_price (generatePayoffData halfCentCollar) 100 with
    | Some a => fin_val a | None => 0 end.
Definition reachedBear_89 : Q :=
  Eval vm_compute in
    match payoff_at_price (generatePayoffData reachedBear) 89 with
    | Some a => fin_val a | None => 0 end.
Definition reachedBear_90 : Q :=
  Eval vm_compute in
    match payoff_at_price (generatePayoffData reachedBear) 90 with
    | Some a => fin_val a | None => 0 end.

(** ** C1: the reported payoff of each strategy *)

(** Claim C1 (amended).  With numeric premiums and parameters of magnitude
    at most 10^6, the payoff reported at each grid price is the double
    nearest to a whole number of cents [n/100], and [n/100] is within half
    a cent (plus 10^-7 for the double arithmetic) of the exact leg sum:
    collar = stock leg + long put at [putStrike] + short call at
    [callStrike]; protective_put = stock leg + long put at [putStrike];
    bear_put_spread = long put at [putStrike] + short put at [callStrike],
    with no stock leg. *)
Theorem C1_payoff_near_leg_sum (s : HedgeState) (pp cp : Q) (pt : PayoffPoint)
  (Hpp : parseFloat (putPremium s) = Fin pp)
  (Hcp : has_second_leg s = true -> parseFloat (callPremium s) = Fin cp)
  (HS : (Z.abs (currentPrice s) <= 1000000)%Z)
  (HK1 : (Z.abs (putStrike s) <= 1000000)%Z)
  (HK2 : (Z.abs (callStrike s) <= 1000000)%Z)
  (Hpb : Qabs pp <= 1000000) (Hcb : Qabs cp <= 1000000)
  (Hin : In pt (generatePayoffData s)) :
  exists n : Z, payoff pt = to_num (inject_Z n / 100) /\
    Qabs (inject_Z n / 100 - exact_payoff s pp cp (price pt))
    <= (1 # 200) + (1 # 10000000).
Proof.
  apply in_generatePayoffData in Hin as [Hp ->].
  apply (payoff_rounded s pp cp (price pt)); auto.
  apply grid_price_bound, Hp.
Qed.

Lemma C1_payoff_near_leg_sum_witness :
  exists n : Z,
    payoff {| price := 100; payoff := round_cents (payoff_at initialState 100) |}
    = to_num (inject_Z n / 100) /\
    Qabs (inject_Z n / 100 - exact_payoff initialState 10 10 100)
    <= (1 # 200) + (1 # 10000000).
Proof.
  apply (C1_payoff_near_leg_sum initialState 10 10).
  - vm_compute. reflexivity.
  - intros _. vm_compute. reflexivity.
  - vm_compute. discriminate.
  - vm_compute. discriminate.
  - vm_compute. discriminate.
  - apply Qle_bool_iff. reflexivity.
  - apply Qle_bool_iff. reflexivity.
  - apply generatePayoffData_has, priceGrid_in. lia.
Defined.

(** Claim C1 as stated fails: for the default collar with a put premium
    typed as 10.005, the payoff reported at price 85 (-5.01) is not the
    leg sum 5 − 10.005 (nor the leg sum with the double read from
    ["10.005"]). *)
Lemma C1_counterexample :
  parseFloat (putPremium halfCentCollar) = Fin pp_10_005 /\
  parseFloat (callPremium halfCentCollar) = Fin 10 /\
  payoff_at_price (generatePayoffData halfCentCollar) 85 = Some (Fin halfCent_85) /\
  ~ (halfCent_85 == exact_payoff halfCentCollar pp_10_005 10 85) /\
  ~ (halfCent_85 == exact_payoff halfCentCollar (10005 # 1000) 10 85).
Proof.
  split; [vm_compute; reflexivity |].
  split; [vm_compute; reflexivity |].
  split; [vm_compute; reflexivity |].
  split; intros H; apply Qeq_bool_iff in H; vm_compute in H; discriminate H.
Qed.

(** ** C2: the reported extrema are grid extrema *)

Definition num_eq_dec (a b : num) : {a = b} + {a <> b}.
Proof. repeat decide equality. Defined.

Lemma generatePayoffData_nonempty (s : HedgeState) :
  map payoff (generatePayoffData s) <> [].
Proof. unfold generatePayoffData. simpl. discriminate. Qed.

(** Claim C2 (amended).  [maxLoss] and [maxGain] are [Math.min] and
    [Math.max] of the 36 reported grid payoffs, not theoretical bounds:
    when some payoff is NaN both are NaN; otherwise both are payoffs of
    grid points, [maxLoss] is at most and [maxGain] at least every grid
    payoff. *)
Theorem C2_grid_extrema (s : HedgeState) :
  let ps := map payoff (generatePayoffData s) in
  (In NaN ps /\ maxLoss s = NaN /\ maxGain s = NaN) \/
  (~ In NaN ps /\ In (maxLoss s) ps /\ In (maxGain s) ps /\
   forall y, In y ps -> num_le (maxLoss s) y /\ num_le y (maxGain s)).
Proof.
  intros ps. unfold maxLoss, maxGain. fold ps.
  assert (Hne : ps <> []) by apply generatePayoffData_nonempty.
  destruct (in_dec num_eq_dec NaN ps) as [Hn | Hn].
  - left. split; [exact Hn |].
    unfold Math_min, Math_max.
    split; [apply fold_min_has_NaN | apply fold_max_has_NaN]; auto.
  - right. destruct (Math_min_spec ps Hne Hn) as [Im Lm].
    destruct (Math_max_spec ps Hne Hn) as [IM LM].
    split; [exact Hn |]. split; [exact Im |]. split; [exact IM |].
    intros y Hy. split; [apply Lm | apply LM]; exact Hy.
Qed.

(** Claim C2 as stated fails: a collar with its put struck at 50 reports a
    max loss of −15, not its floor 50 − 100 − 10 + 10 = −50 (the grid stops
    at 85), and the default protective put reports the finite max gain 10
    taken from the grid. *)
Lemma C2_counterexample :
  maxLoss lowPutCollar = Fin (-15) /\
  ~ (-15 == inject_Z (putStrike lowPutCollar) - inject_Z (currentPrice lowPutCollar)
             - 10 + 10) /\
  maxGain protectiveDefault = Fin 10.
Proof.
  split; [vm_compute; reflexivity |].
  split; [intros H; apply Qeq_bool_iff in H; vm_compute in H; discriminate H |].
  vm_compute. reflexivity.
Qed.

(** ** C3: the breakeven is a closed form *)




(** The specification's sign-change breakeven on its two worked examples. *)
Example spec_breakeven_collar_default :
  spec_breakeven (generatePayoffData initialState) = Some 100.
Proof. vm_compute. reflexivity. Qed.

Example spec_breakeven_protective_default :
  spec_breakeven (generatePayoffData protectiveDefault) = Some 110.
Proof. vm_compute. reflexivity. Qed.

(** ** C5: the payoff at the current price *)

(** Claim C5 (amended).  At the grid point whose price equals
    [currentPrice], the reported payoff depends on the premiums only: it is
    the cent rounding [Math.round(x * 100) / 100] of [x = callPremium −
    putPremium] computed in doubles for a collar with putStrike ≤
    currentPrice ≤ callStrike and for a bear spread with both strikes ≤
    currentPrice, and of [x = − putPremium] for a protective put with
    putStrike ≤ currentPrice. *)
Theorem C5_payoff_at_spot (s : HedgeState) (pt : PayoffPoint)
  (Hin : In pt (generatePayoffData s)) (Hx : price pt = currentPrice s) :
  (strategy s = js "collar" -> (putStrike s <= currentPrice s <= callStrike s)%Z ->
   payoff pt = round_cents (nsub (parseFloat (callPremium s)) (parseFloat (putPremium s)))) /\
  (strategy s = js "protective_put" -> (putStrike s <= currentPrice s)%Z ->
   payoff pt = round_cents (nneg (parseFloat (putPremium s)))) /\
  (strategy s = js "bear_put_spread" -> (putStrike s <= currentPrice s)%Z ->
   (callStrike s <= currentPrice s)%Z ->
   payoff pt = round_cents (nsub (parseFloat (callPremium s)) (parseFloat (putPremium s)))).
Proof.
  apply in_generatePayoffData in Hin as [_ ->]. rewrite Hx.
  pose proof (parseFloat_valid (putPremium s)) as Vp.
  pose proof (parseFloat_valid (callPremium s)) as Vc.
  unfold payoff_at. rewrite nsub_nZ_self.
  split; [| split].
  - intros Hs [H1 H2]. rewrite Hs. strat_tac.
    rewrite (max0_le _ _ H1), (max0_le _ _ H2).
    rewrite nsub_0_l by exact Vp. rewrite nneg_0.
    rewrite (nadd_0_l (parseFloat (callPremium s)) Vc).
    rewrite (nadd_0_l (nneg (parseFloat (putPremium s)))) by apply valid_nneg, Vp.
    unfold nsub. rewrite nadd_comm. reflexivity.
  - intros Hs H1. rewrite Hs. strat_tac.
    rewrite (max0_le _ _ H1), nsub_0_l by exact Vp.
    rewrite nadd_0_l by apply valid_nneg, Vp. reflexivity.
  - intros Hs H1 H2. rewrite Hs. strat_tac.
    rewrite (max0_le _ _ H1), (max0_le _ _ H2).
    rewrite nsub_0_l by exact Vp. rewrite nneg_0.
    rewrite (nadd_0_l (parseFloat (callPremium s)) Vc).
    unfold nsub. rewrite nadd_comm. reflexivity.
Qed.

Lemma C5_payoff_at_spot_witness :
  payoff {| price := 100; payoff := round_cents (payoff_at initialState 100) |}
  = round_cents (nsub (parseFloat (callPremium initialState))
                      (parseFloat (putPremium initialState))) /\
  payoff {| price := 100; payoff := round_cents (payoff_at initialState 100) |} = Fin 0.
Proof.
  split; [| vm_compute; reflexivity].
  apply (proj1 (C5_payoff_at_spot initialState
                  {| price := 100; payoff := round_cents (payoff_at initialState 100) |}
                  ltac:(apply generatePayoffData_has, priceGrid_in; lia) eq_refl)).
  - reflexivity.
  - simpl. lia.
Defined.

(** Claim C5 as stated fails: for the default collar with a put premium
    typed as 10.005, the payoff reported at the current price 100 is −0.01,
    not −10.005 + 10 = −0.005 (nor 10 minus the double read from
    ["10.005"]). *)
Lemma C5_counterexample :
  parseFloat (putPremium halfCentCollar) = Fin pp_10_005 /\
  currentPrice halfCentCollar = 100%Z /\
  payoff_at_price (generatePayoffData halfCentCollar) 100 = Some (Fin halfCent_100) /\
  ~ (halfCent_100 == 10 - pp_10_005) /\
  ~ (halfCent_100 == 10 - (10005 # 1000)) /\
  halfCent_100 < (-1 # 100) + (1 # 1000).
Proof.
  split; [vm_compute; reflexivity |].
  split; [reflexivity |].
  split; [vm_compute; reflexivity |].
  split; [intros H; apply Qeq_bool_iff in H; vm_compute in H; discriminate H |].
  split; [intros H; apply Qeq_bool_iff in H; vm_compute in H; discriminate H |].
  apply Qlt_alt. vm_compute. reflexivity.
Qed.

(** ** C6: the grid is fixed *)

(** Claim C6 (amended).  For every state, the grid of [generatePayoffData]
    is the fixed list of prices 85, 86, …, 120 (step 1), independent of the
    current price. *)
Theorem C6_fixed_grid (s : HedgeState) :
  map price (generatePayoffData s) = map (fun k => 85 + Z.of_nat k)%Z (seq 0 36).
Proof.
  unfold generatePayoffData. rewrite map_map. simpl (price _).
  rewrite map_id. exact priceGrid_values.
Qed.

(** Claim C6 as stated fails: the grids for spot prices 100 and 150 are the
    same list, and for spot 100 it starts at 85, not at 100 − 30% = 70. *)
Lemma C6_counterexample :
  map price (generatePayoffData initialState)
  = map price (generatePayoffData (with_currentPrice initialState 150)) /\
  hd 0%Z (map price (generatePayoffData initialState)) = 85%Z /\
  ~ (inject_Z 85 == (1 - 30 # 100) * inject_Z (currentPrice initialState)).
Proof.
  split; [reflexivity |]. split; [reflexivity |].
  intros H; apply Qeq_bool_iff in H; vm_compute in H; discriminate H.
Qed.

(** ** C4: no strike combination is rejected *)

(** Claim C4 (failing input).  The put slider's maximum [currentPrice − 5]
    holds the put strike below spot only while it is dragged: after the
    default state, dragging the current price to 60 leaves putStrike 95 ≥
    60, and selecting the bear spread keeps the long put at 95 below the
    short put at 110; both states are evaluated on the grid, and no state
    is rejected.  With spot 150 the collar call slider has min 155 > max
    150 and Radix clamps to the max: the call strike becomes 150. *)
Theorem C4_strike_order_not_enforced :
  ui_run initialState [SlideCurrentPrice 60] = Some (with_currentPrice initialState 60) /\
  ui_run initialState [SlideCurrentPrice 150; SlideCallStrike 200]
    = Some (with_callStrike (with_currentPrice initialState 150) 150) /\
  (currentPrice (with_currentPrice initialState 60)
   <= putStrike (with_currentPrice initialState 60))%Z /\
  payoff_at_price (generatePayoffData (with_currentPrice initialState 60)) 85
    = Some (Fin 35) /\
  ui_run initialState [SelectStrategy (js "bear_put_spread")] = Some bearDefault /\
  (putStrike bearDefault < callStrike bearDefault)%Z /\
  payoff_at_price (generatePayoffData bearDefault) 85 = Some (Fin (-15)) /\
  (forall s, length (generatePayoffData s) = 36%nat).
Proof.
  split; [reflexivity |]. split; [reflexivity |]. split; [simpl; lia |].
  split; [vm_compute; reflexivity |].
  split; [reflexivity |]. split; [simpl; lia |].
  split; [vm_compute; reflexivity |].
  intros s. unfold generatePayoffData. rewrite length_map. reflexivity.
Qed.

(** ** C7: unvalidated inputs *)


(** ** C9: the implemented bear spread *)

(** Claim C9 (amended).  For the bear_put_spread branch with putStrike ≤
    callStrike, numeric premiums and parameters of magnitude at most 10^6,
    the reported payoffs are whole numbers of cents that can drop by at
    most one cent as the price rises: for grid prices p ≤ q the payoffs
    are the doubles nearest to [n1/100] and [n2/100] with [n1 ≤ n2 + 1]. *)
Theorem C9_bear_spread_near_monotone (s : HedgeState) (pp cp : Q)
  (pt1 pt2 : PayoffPoint)
  (Hs : strategy s = js "bear_put_spread")
  (Hk : (putStrike s <= callStrike s)%Z)
  (Hpp : parseFloat (putPremium s) = Fin pp)
  (Hcp : parseFloat (callPremium s) = Fin cp)
  (HS : (Z.abs (currentPrice s) <= 1000000)%Z)
  (HK1 : (Z.abs (putStrike s) <= 1000000)%Z)
  (HK2 : (Z.abs (callStrike s) <= 1000000)%Z)
  (Hpb : Qabs pp <= 1000000) (Hcb : Qabs cp <= 1000000)
  (H1 : In pt1 (generatePayoffData s)) (H2 : In pt2 (generatePayoffData s))
  (Hle : (price pt1 <= price pt2)%Z) :
  exists n1 n2 : Z,
    payoff pt1 = to_num (inject_Z n1 / 100) /\
    payoff pt2 = to_num (inject_Z n2 / 100) /\
    (n1 <= n2 + 1)%Z.
Proof.
  apply in_generatePayoffData in H1 as [Hp1 ->].
  apply in_generatePayoffData in H2 as [Hp2 ->].
  destruct (payoff_rounded s pp cp (price pt1) Hpp (fun _ => Hcp)
              (grid_price_bound _ Hp1) HS HK1 HK2 Hpb Hcb) as [n1 [E1 B1]].
  destruct (payoff_rounded s pp cp (price pt2) Hpp (fun _ => Hcp)
              (grid_price_bound _ Hp2) HS HK1 HK2 Hpb Hcb) as [n2 [E2 B2]].
  exists n1, n2. split; [exact E1 |]. split; [exact E2 |].
  assert (Hm : exact_payoff s pp cp (price pt1) <= exact_payoff s pp cp (price pt2)).
  { unfold exact_payoff. rewrite Hs. strat_tac.
    apply bear_legs_mono; rewrite <- Zle_Qle; assumption. }
  apply Qabs_Qle_condition in B1, B2.
  rewrite !Qdiv_100 in B1, B2.
  assert (Hlt : inject_Z n1 < inject_Z (n2 + 2)).
  { rewrite inject_Z_plus. change (inject_Z 2) with 2. lra. }
  rewrite <- Zlt_Qlt in Hlt. lia.
Qed.

Lemma C9_bear_spread_near_monotone_witness :
  exists n1 n2 : Z,
    round_cents (payoff_at bearDefault 85) = to_num (inject_Z n1 / 100) /\
    round_cents (payoff_at bearDefault 120) = to_num (inject_Z n2 / 100) /\
    (n1 <= n2 + 1)%Z.
Proof.
  apply (C9_bear_spread_near_monotone bearDefault 10 10
           {| price := 85; payoff := round_cents (payoff_at bearDefault 85) |}
           {| price := 120; payoff := round_cents (payoff_at bearDefault 120) |}).
  - reflexivity.
  - simpl. lia.
  - vm_compute. reflexivity.
  - vm_compute. reflexivity.
  - vm_compute. discriminate.
  - vm_compute. discriminate.
  - vm_compute. discriminate.
  - apply Qle_bool_iff. reflexivity.
  - apply Qle_bool_iff. reflexivity.
  - apply generatePayoffData_has, priceGrid_in. lia.
  - apply generatePayoffData_has, priceGrid_in. lia.
  - simpl. lia.
Defined.

(** Claim C9 as stated fails: the bear spread reached through the controls
    with strikes 90 and 95 and premiums 0.315 and 10 reports 4.69 at price
    89 and 4.68 at price 90. *)
Lemma C9_counterexample :
  ui_run initialState [SelectStrategy (js "bear_put_spread"); SlidePutStrike 90;
                       SlideCallStrike 95; TypePutPremium (js "0.315")]
  = Some reachedBear /\
  (putStrike reachedBear + 5 <= callStrike reachedBear)%Z /\
  payoff_at_price (generatePayoffData reachedBear) 89 = Some (Fin reachedBear_89) /\
  payoff_at_price (generatePayoffData reachedBear) 90 = Some (Fin reachedBear_90) /\
  reachedBear_90 < reachedBear_89.
Proof.
  split; [vm_compute; reflexivity |].
  split; [simpl; lia |].
  split; [vm_compute; reflexivity |].
  split; [vm_compute; reflexivity |].
  apply Qlt_alt. vm_compute. reflexivity.
Qed.

(** ** C10: unknown strategies *)

(** Claim C10.  For a strategy outside the three known ones every grid
    payoff is 0 and the breakeven is the current price. *)
Theorem C10_unknown_strategy (s : HedgeState)
  (H1 : strategy s <> js "collar")
  (H2 : strategy s <> js "protective_put")
  (H3 : strategy s <> js "bear_put_spread") :
  (forall pt, In pt (generatePayoffData s) -> payoff pt = Fin 0) /\
  getBreakeven s = nZ (currentPrice s).
Proof.
  apply jstr_eqb_neq in H1, H2, H3.
  split.
  - intros pt Hin. apply in_generatePayoffData in Hin as [_ ->].
    unfold payoff_at. rewrite H1, H2, H3. reflexivity.
  - unfold getBreakeven. rewrite H1, H2, H3. reflexivity.
Qed.

Lemma C10_unknown_strategy_witness :
  strategy straddleState <> js "collar" /\
  strategy straddleState <> js "protective_put" /\
  strategy straddleState <> js "bear_put_spread" /\
  getBreakeven straddleState = Fin 100.
Proof.
  split; [discriminate |]. split; [discriminate |]. split; [discriminate |].
  exact (proj2 (C10_unknown_strategy straddleState
                  ltac:(discriminate) ltac:(discriminate) ltac:(discriminate))).
Defined.

(** ** C8: undefined Sharpe ratio and beta *)

Module RiskMetricsFacts.
Import RiskMetricsModel.
(** Claim C8.  Whatever the sample, [computeMetrics] returns a full bundle
    (volatility always computed); its Sharpe ratio is [UndefinedMetricError],
    reported as null, exactly when the per-period volatility is 0, and its
    beta is [UndefinedMetricError], reported as null, when the benchmark is
    absent or has variance 0, a defined value otherwise. *)
Theorem C8_undefined_metrics (rets : list R) (benchmark : option (list R))
  (rf : R) :
  let m := computeMetrics rets benchmark rf in
  volatility m = volatilityPerPeriod rets /\
  (sharpeMetric m = Undefined UndefinedMetricError <->
   volatilityPerPeriod rets = 0%R) /\
  (volatilityPerPeriod rets = 0%R -> report (sharpeMetric m) = None) /\
  (betaMetric m = Undefined UndefinedMetricError <->
   benchmark = None \/
   exists b, benchmark = Some b /\ sample_variance b = 0%R) /\
  ((benchmark = None \/ exists b, benchmark = Some b /\ sample_variance b = 0%R) ->
   report (betaMetric m) = None).
Proof.
  simpl. unfold sharpeRatio, beta.
  assert (Hs : (if Req_dec_T (volatilityPerPeriod rets) 0
                then Undefined UndefinedMetricError
                else Defined ((mean rets - rf) / volatilityPerPeriod rets))
               = Undefined UndefinedMetricError <->
               volatilityPerPeriod rets = 0%R).
  { destruct (Req_dec_T (volatilityPerPeriod rets) 0); split;
      intros; try discriminate; auto; contradiction. }
  assert (Hb : (match benchmark with
                | None => Undefined UndefinedMetricError
                | Some b => if Req_dec_T (sample_variance b) 0
                            then Undefined UndefinedMetricError
                            else Defined (sample_covariance rets b / sample_variance b)
                end) = Undefined UndefinedMetricError <->
               benchmark = None \/
               exists b, benchmark = Some b /\ sample_variance b = 0%R).
  { destruct benchmark as [b |].
    - destruct (Req_dec_T (sample_variance b) 0) as [E | E]; split; intros H.
      + right. exists b. auto.
      + reflexivity.
      + discriminate.
      + destruct H as [H | [b' [Hb' Hv]]]; [discriminate |].
        injection Hb' as <-. contradiction.
    - split; auto. }
  split; [reflexivity |].
  split; [exact Hs |].
  split; [intros H; apply Hs in H; rewrite H; reflexivity |].
  split; [exact Hb |].
  intros H. apply Hb in H. rewrite H. reflexivity.
Qed.

End RiskMetricsFacts.


(** ** What the protective put ignores *)

(** X4.  In the protective_put view, the hidden second leg (call strike and
    call premium) changes neither the payoff data nor the breakeven, and the
    breakeven does not depend on the put strike either. *)
Theorem protective_put_ignores_second_leg (s : HedgeState)
  (Hs : strategy s = js "protective_put") :
  forall k2 cprem k1,
  generatePayoffData (with_callPremium (with_callStrike s k2) cprem)
  = generatePayoffData s /\
  getBreakeven (with_callPremium (with_callStrike s k2) cprem) = getBreakeven s /\
  getBreakeven (with_putStrike s k1) = getBreakeven s.
Proof.
  intros k2 cprem k1. split; [| split].
  - unfold generatePayoffData. apply map_ext. intros p.
    unfold payoff_at. cbn [strategy with_callPremium with_callStrike].
    rewrite Hs. strat_tac. reflexivity.
  - unfold getBreakeven. cbn [strategy with_callPremium with_callStrike].
    rewrite Hs. strat_tac. reflexivity.
  - unfold getBreakeven. cbn [strategy with_putStrike].
    rewrite Hs. strat_tac. reflexivity.
Qed.

Lemma protective_put_ignores_second_leg_witness :
  strategy protectiveDefault = js "protective_put" /\
  getBreakeven (with_putStrike protectiveDefault 60) = getBreakeven protectiveDefault.
Proof.
  split; [reflexivity |].
  exact (proj2 (proj2 (protective_put_ignores_second_leg protectiveDefault eq_refl
                         120 (js "abc") 60))).
Defined.

(** ** A non-numeric put premium *)

Lemma nadd_NaN_r (a : num) : nadd a NaN = NaN.
Proof. destruct a; reflexivity. Qed.

Lemma payoff_at_putPremium_NaN (s : HedgeState) (p : Z) :
  parseFloat (putPremium s) = NaN ->
  (strategy s = js "collar" \/ strategy s = js "protective_put" \/
   strategy s = js "bear_put_spread") ->
  payoff_at s p = NaN.
Proof.
  intros Hpp Hs. unfold payoff_at. rewrite Hpp. unfold nsub.
  change (nneg NaN) with NaN. rewrite !nadd_NaN_r.
  destruct Hs as [-> | [-> | ->]]; strat_tac; rewrite ?nadd_NaN_r; reflexivity.
Qed.

(** X5.  For each of the three strategies, a put premium that does not
    parse makes max loss, max gain and breakeven all NaN. *)
Theorem putPremium_NaN_summary (s : HedgeState)
  (Hpp : parseFloat (putPremium s) = NaN)
  (Hs : strategy s = js "collar" \/ strategy s = js "protective_put" \/
        strategy s = js "bear_put_spread") :
  maxLoss s = NaN /\ maxGain s = NaN /\ getBreakeven s = NaN.
Proof.
  assert (Hd : map payoff (generatePayoffData s) = map (fun _ => NaN) priceGrid).
  { unfold generatePayoffData. rewrite map_map. apply map_ext. intros p.
    cbn [payoff]. rewrite (payoff_at_putPremium_NaN s p Hpp Hs). reflexivity. }
  unfold maxLoss, maxGain. rewrite Hd.
  replace priceGrid with (85%Z :: price_loop 86 35) by reflexivity.
  unfold Math_min, Math_max. cbn [map fold_left].
  change (Math_min2 PInf NaN) with NaN. change (Math_max2 NInf NaN) with NaN.
  rewrite fold_min_NaN, fold_max_NaN. split; [reflexivity | split; [reflexivity |]].
  unfold getBreakeven. rewrite Hpp. unfold nsub. change (nneg NaN) with NaN.
  rewrite !nadd_NaN_r.
  destruct Hs as [-> | [-> | ->]]; strat_tac; rewrite ?nadd_NaN_r; reflexivity.
Qed.

Lemma putPremium_NaN_summary_witness :
  parseFloat (putPremium abcPremiumCollar) = NaN /\ maxLoss abcPremiumCollar = NaN.
Proof.
  split; [reflexivity |].
  exact (proj1 (putPremium_NaN_summary abcPremiumCollar eq_refl
                  (or_introl eq_refl))).
Defined.

(** ** Ranges kept by the controls *)

Lemma ui_step_inv (s s' : HedgeState) (e : UiEvent) :
  ui_inv s -> ui_step s e = Some s' -> ui_inv s'.
Proof.
  intros [Hst [Hc [Hp Hk]]] H.
  destruct e as [v | v | v | v | v | v]; cbn [ui_step] in H.
  - destruct (jstr_eqb v (js "collar") || jstr_eqb v (js "protective_put")
              || jstr_eqb v (js "bear_put_spread"))%bool eqn:E; [| discriminate].
    injection H as <-.
    apply orb_true_iff in E as [E | E]; [apply orb_true_iff in E as [E | E] |];
      apply jstr_eqb_eq in E; subst v;
      unfold ui_inv; cbn [strategy currentPrice putStrike callStrike with_strategy];
      repeat split; auto; lia.
  - injection H as <-. unfold ui_inv, clamp;
      cbn [strategy currentPrice putStrike callStrike with_currentPrice];
      repeat split; auto; lia.
  - injection H as <-. unfold ui_inv, clamp;
      cbn [strategy currentPrice putStrike callStrike with_putStrike];
      repeat split; auto; lia.
  - destruct (has_second_leg s); [| discriminate].
    injection H as <-. unfold ui_inv, clamp;
      cbn [strategy currentPrice putStrike callStrike with_callStrike].
    unfold callStrike_min.
    destruct (jstr_eqb (strategy s) (js "bear_put_spread")); repeat split; auto; lia.
  - injection H as <-. unfold ui_inv; cbn [strategy currentPrice putStrike callStrike
      with_putPremium]; repeat split; auto; lia.
  - destruct (has_second_leg s); [| discriminate].
    injection H as <-. unfold ui_inv; cbn [strategy currentPrice putStrike callStrike
      with_callPremium]; repeat split; auto; lia.
Qed.

Lemma ui_run_inv (es : list UiEvent) : forall s s',
  ui_inv s -> ui_run s es = Some s' -> ui_inv s'.
Proof.
  induction es as [| e es IH]; cbn [ui_run]; intros s s' Hs H.
  - injection H as <-. exact Hs.
  - destruct (ui_step s e) as [s1 |] eqn:E; [| discriminate].
    exact (IH s1 s' (ui_step_inv s s1 e Hs E) H).
Qed.

(** X6.  Every state reachable from the initial one through the controls
    (each slider value clamped to its [min, max] as the Radix slider does)
    has one of the three strategies, a current price in [50, 150], a put
    strike in [45, 145] and a second strike in [50, 150]. *)
Theorem reachable_states_in_ranges (es : list UiEvent) (s : HedgeState)
  (H : ui_run initialState es = Some s) :
  ui_inv s.
Proof.
  apply (ui_run_inv es initialState s); [| exact H].
  unfold ui_inv; cbn [strategy currentPrice putStrike callStrike initialState].
  repeat split; auto; lia.
Qed.

(** The put strike 45 is reached: spot dragged to 50, then the put slider. *)
Lemma reachable_states_in_ranges_witness :
  exists s, ui_run initialState
              [SlideCurrentPrice 50; SlidePutStrike 60;
               SelectStrategy (js "bear_put_spread"); SlideCallStrike 0] = Some s /\
            putStrike s = 45%Z /\ callStrike s = 50%Z /\ ui_inv s.
Proof.
  eexists. split; [vm_compute; reflexivity |].
  split; [reflexivity |]. split; [reflexivity |].
  apply (reachable_states_in_ranges
           [SlideCurrentPrice 50; SlidePutStrike 60;
            SelectStrategy (js "bear_put_spread"); SlideCallStrike 0]).
  vm_compute. reflexivity.
Defined.

(** ** Holding requests *)

Lemma drop_space_hd (l : jstr) (c : N) :
  hd_error (drop_space l) = Some c -> is_js_space c = false.
Proof.
  induction l as [| d l IH]; cbn [drop_space]; [discriminate |].
  destruct (is_js_space d) eqn:E; [exact IH |].
  cbn [hd_error]. intros H. injection H as <-. exact E.
Qed.

Lemma drop_space_suffix (l : jstr) :
  exists pre, l = pre ++ drop_space l /\ forallb is_js_space pre = true.
Proof.
  induction l as [| c l [pre [Hl Hp]]]; cbn [drop_space].
  - exists []. auto.
  - destruct (is_js_space c) eqn:E.
    + exists (c :: pre). cbn [forallb app]. rewrite E, Hp. split; [congruence | reflexivity].
    + exists []. auto.
Qed.

(** Neither the first nor the last code unit of [js_trim s] is white
    space. *)
Lemma js_trim_ends (l : jstr) :
  (forall c, hd_error (js_trim l) = Some c -> is_js_space c = false) /\
  (forall c, hd_error (rev (js_trim l)) = Some c -> is_js_space c = false).
Proof.
  unfold js_trim.
  set (m := drop_space l).
  set (d := drop_space (rev m)).
  destruct (drop_space_suffix (rev m)) as [pre [Hm _]]. fold d in Hm.
  split.
  - intros c Hc.
    destruct d as [| x d'] eqn:Ed; [discriminate |].
    assert (Hmr : m = rev (x :: d') ++ rev pre).
    { rewrite <- rev_app_distr, <- Hm, rev_involutive. reflexivity. }
    destruct (rev (x :: d')) as [| y r] eqn:Er; [discriminate |].
    cbn [hd_error] in Hc. injection Hc as <-.
    apply (drop_space_hd l). fold m. rewrite Hmr. reflexivity.
  - intros c Hc. rewrite rev_involutive in Hc.
    exact (drop_space_hd _ _ Hc).
Qed.

(** [x <= 0] is false for [NaN], [+Infinity] and positive numbers only. *)
Lemma js_le_0_false (v : num) :
  js_le v (Fin 0) = false -> v = NaN \/ v = PInf \/ exists x, v = Fin x /\ 0 < x.
Proof.
  destruct v as [x | | |]; cbn; intros H; auto; try discriminate.
  right; right. exists x. split; [reflexivity |].
  destruct (Qle_bool x 0) eqn:E; [discriminate |].
  apply Qle_bool_false_lt in E. exact E.
Qed.

(** X8.  A request sent by [addHoldingByShares] or [addHoldingByDollars]
    carries as symbol [toUpperCase] of the trimmed input, which is
    non-empty and neither starts nor ends with white space; the share
    count (or dollar amount) it carries is the one given; that value and
    the price each are [NaN], [+Infinity] or a positive finite number. *)
Theorem holding_request_normalized (toUpperCase : jstr -> jstr) (symbol : jstr)
  (v px : num) (r : AddHoldingRequest)
  (H : addHoldingByShares_request toUpperCase symbol v px = Some r \/
       addHoldingByDollars_request toUpperCase symbol v px = Some r) :
  let t := js_trim symbol in
  req_symbol r = toUpperCase t /\ t <> [] /\
  (forall c, hd_error t = Some c -> is_js_space c = false) /\
  (forall c, hd_error (rev t) = Some c -> is_js_space c = false) /\
  (forall a, req_quantity r = Some a \/ req_amount r = Some a -> a = v) /\
  (v = NaN \/ v = PInf \/ exists x, v = Fin x /\ 0 < x) /\
  (px = NaN \/ px = PInf \/ exists x, px = Fin x /\ 0 < x).
Proof.
  assert (Hg : js_empty (js_trim symbol) = false /\
               js_le v (Fin 0) = false /\ js_le px (Fin 0) = false /\
               req_symbol r = toUpperCase (js_trim symbol) /\
               (forall a, req_quantity r = Some a \/ req_amount r = Some a -> a = v)).
  { unfold addHoldingByShares_request, addHoldingByDollars_request,
      addHoldingByShares_passes in H.
    destruct (js_empty symbol); [destruct H; discriminate |].
    destruct (js_empty (js_trim symbol)); [destruct H; discriminate |].
    destruct (js_le v (Fin 0)); [destruct H; discriminate |].
    destruct (js_le px (Fin 0)); [destruct H; discriminate |].
    cbn [orb] in H. destruct H as [H | H]; injection H as <-;
      cbn [req_symbol req_quantity req_amount];
      repeat split; auto; intros a [Ha | Ha]; congruence. }
  destruct Hg as [He [Hv [Hp [Hr Ha]]]].
  destruct (js_trim_ends symbol) as [T1 T2].
  intros t. split; [exact Hr |]. split.
  { unfold t. destruct (js_trim symbol); [discriminate | discriminate]. }
  split; [exact T1 |]. split; [exact T2 |]. split; [exact Ha |].
  split; apply js_le_0_false; assumption.
Qed.

(** The upper-casing of ASCII letters, as one instance of [toUpperCase]. *)
Definition ascii_upper (s : jstr) : jstr :=
  map (fun c => if ((97 <=? c) && (c <=? 122))%N then (c - 32)%N else c) s.

(** A symbol typed with a no-break space before it and a form feed after
    it is sent trimmed. *)
Lemma holding_request_normalized_witness :
  exists r, addHoldingByShares_request ascii_upper (160%N :: js "aapl" ++ [12%N])
              (Fin 3) (Fin 150) = Some r /\
    req_symbol r = js "AAPL" /\ js_trim (160%N :: js "aapl" ++ [12%N]) <> [].
Proof.
  eexists. split; [reflexivity |]. split; [vm_compute; reflexivity |].
  exact (proj1 (proj2 (holding_request_normalized ascii_upper
                  (160%N :: js "aapl" ++ [12%N]) (Fin 3) (Fin 150) _
                  (or_introl eq_refl)))).
Defined.

(** X9.  With nothing being added, the "Add to Portfolio" button is enabled
    exactly when [confirmAddToPortfolio] sends a request (for either
    purchase type); the request's [type] is the purchase type and it
    carries only the field of that type, [parseFloat] of the matching
    input; with no stock selected nothing is sent. *)
Theorem add_button_matches_handler (toUpperCase : jstr -> jstr)
  (sym purchaseType quantity dollarAmount : jstr)
  (Hpt : purchaseType = js "shares" \/ purchaseType = js "dollars") :
  (addButtonDisabled false purchaseType quantity dollarAmount = false <->
   confirmAddToPortfolio toUpperCase (Some sym) purchaseType quantity dollarAmount
   <> None) /\
  (forall r, confirmAddToPortfolio toUpperCase (Some sym) purchaseType quantity
               dollarAmount = Some r ->
   req_type r = purchaseType /\
   (purchaseType = js "shares" ->
    req_quantity r = Some (parseFloat quantity) /\ req_amount r = None) /\
   (purchaseType = js "dollars" ->
    req_quantity r = None /\ req_amount r = Some (parseFloat dollarAmount))) /\
  confirmAddToPortfolio toUpperCase None purchaseType quantity dollarAmount = None.
Proof.
  split; [| split; [| reflexivity]].
  - destruct Hpt as [-> | ->]; unfold addButtonDisabled, confirmAddToPortfolio;
      strat_tac.
    + destruct (js_empty quantity || js_le (parseFloat quantity) (Fin 0))%bool;
        cbn [orb andb]; split; intros H;
        solve [discriminate | reflexivity | exfalso; apply H; reflexivity].
    + destruct (js_empty dollarAmount || js_le (parseFloat dollarAmount) (Fin 0))%bool;
        cbn [orb andb]; split; intros H;
        solve [discriminate | reflexivity | exfalso; apply H; reflexivity].
  - intros r Hr. destruct Hpt as [-> | ->]; unfold confirmAddToPortfolio in Hr;
      strat_tac; revert Hr; strat_tac; intros Hr.
    + destruct (js_empty quantity || js_le (parseFloat quantity) (Fin 0))%bool;
        [discriminate |].
      injection Hr as <-. cbn [req_type req_quantity req_amount].
      split; [reflexivity |].
      split; [auto | intros H; discriminate].
    + destruct (js_empty dollarAmount || js_le (parseFloat dollarAmount) (Fin 0))%bool;
        [discriminate |].
      injection Hr as <-. cbn [req_type req_quantity req_amount].
      split; [reflexivity |].
      split; [intros H; discriminate | auto].
Qed.

Lemma add_button_matches_handler_witness :
  addButtonDisabled false (js "dollars") [] (js "250") = false /\
  confirmAddToPortfolio ascii_upper (Some (js "msft")) (js "dollars") [] (js "250")
  <> None.
Proof.
  split; [reflexivity |].
  apply (proj1 (proj1 (add_button_matches_handler ascii_upper (js "msft")
                         (js "dollars") [] (js "250") (or_intror eq_refl)))).
  reflexivity.
Defined.

(** ** Number formatting *)

Lemma str_app_assoc (a b c : string) :
  ((a ++ b) ++ c)%string = (a ++ b ++ c)%string.
Proof. induction a as [| x a IH]; cbn [append]; [reflexivity | now rewrite IH]. Qed.

Lemma str_app_nil_r (a : string) : (a ++ "")%string = a.
Proof. induction a as [| x a IH]; cbn [append]; [reflexivity | now rewrite IH]. Qed.

Lemma js_le_Fin (x y : Q) : js_le (Fin x) (Fin y) = Qle_bool x y.
Proof. cbn. destruct (Qle_bool x y); reflexivity. Qed.

Lemma toFixed2_small (q : Q) :
  Qabs q < 1000000000000000000000 ->
  Qle_bool 1000000000000000000000 (Qabs q) = false.
Proof. intros H. apply Qle_bool_false_lt. exact H. Qed.

(** [toFixed(2)] of a non-negative finite value below 10^21: the digits of
    the nearest hundredth [n / 100] (the larger one on a tie), which
    [parseFloat] reads back as the double nearest to [n / 100]. *)
Lemma fixed2_nonneg (x : Q) :
  0 <= x -> x < 1000000000000000000000 ->
  let n := Qfloor (x * 100 + (1 # 2)) in
  toFixed2 (Fin x) = Some (Z_to_dec (n / 100) ++ "." ++ two_digits (n mod 100))%string /\
  (0 <= n)%Z /\ Qabs (inject_Z n / inject_Z 100 - x) <= 1 # 200 /\
  parseFloat (js (Z_to_dec (n / 100) ++ "." ++ two_digits (n mod 100)))
  = to_num (inject_Z n / inject_Z 100).
Proof.
  intros Hx Hlt n.
  assert (Hb : Qle_bool 1000000000000000000000 (Qabs x) = false)
    by (apply toFixed2_small; rewrite Qabs_pos by exact Hx; exact Hlt).
  assert (Hn' : Qfloor (Qabs x * 100 + (1 # 2)) = n).
  { apply Qfloor_comp. rewrite (Qabs_pos x Hx). reflexivity. }
  destruct (fixed2_digits_bounds x Hx) as [Hn Hd]. fold n in Hn, Hd.
  split; [| split; [exact Hn | split; [exact Hd |]]].
  - unfold toFixed2. rewrite Hb, Hn', (proj2 (Qle_bool_iff 0 x) Hx). reflexivity.
  - rewrite <- (str_app_nil_r (two_digits (n mod 100))).
    rewrite <- (Z.mul_1_l n) at 3.
    apply (parseFloat_fixed2 "" "" 1 n Hn); auto.
Qed.

(** X10.  Below 10^21 in absolute value, [formatPercent] writes ["+"] for a
    non-negative and ["-"] for a negative percentage, then the nearest
    hundredth [n / 100] of its magnitude (the larger one on a tie), then
    ["%"]; [parseFloat] of that text is the double nearest to [± n / 100],
    not the percentage itself. *)
Theorem formatPercent_decimal (q : Q) (Hq : Qabs q < 1000000000000000000000) :
  let n := Qfloor (Qabs q * 100 + (1 # 2)) in
  let text := ((if Qle_bool 0 q then "+" else "-") ++ Z_to_dec (n / 100) ++ "."
               ++ two_digits (n mod 100) ++ "%")%string in
  formatPercent (Fin q) = Some text /\
  (0 <= n)%Z /\ Qabs (inject_Z n / inject_Z 100 - Qabs q) <= 1 # 200 /\
  parseFloat (js text)
  = to_num (inject_Z (if Qle_bool 0 q then n else - n) / inject_Z 100).
Proof.
  intros n text.
  destruct (fixed2_digits_bounds (Qabs q) (Qabs_nonneg q)) as [Hn Hd]. fold n in Hn, Hd.
  split; [| split; [exact Hn | split; [exact Hd |]]].
  - unfold formatPercent, toFixed2, text. rewrite (toFixed2_small q Hq), js_le_Fin.
    fold n. destruct (Qle_bool 0 q); f_equal; rewrite !str_app_assoc; reflexivity.
  - unfold text. destruct (Qle_bool 0 q).
    + rewrite <- (Z.mul_1_l n) at 3. apply parseFloat_fixed2; auto.
    + replace (- n)%Z with (-1 * n)%Z by lia. apply parseFloat_fixed2; auto.
Qed.

(** [formatPercent(0.125)] is ["+0.13%"]: the tie goes up. *)
Lemma formatPercent_decimal_witness :
  formatPercent (Fin (1 # 8)) = Some "+0.13%"%string /\
  parseFloat (js "+0.13%") = to_num (13 # 100) /\
  Qabs (1 # 8) < 1000000000000000000000 /\
  Qabs (inject_Z 13 / inject_Z 100 - Qabs (1 # 8)) <= 1 # 200.
Proof.
  assert (Hq : Qabs (1 # 8) < 1000000000000000000000) by (apply Qlt_alt; reflexivity).
  destruct (formatPercent_decimal (1 # 8) Hq) as [H1 [_ [H3 H4]]].
  split; [exact H1 |]. split; [exact H4 |]. split; [exact Hq | exact H3].
Defined.

Lemma Qle_bool_true (x y : Q) : x <= y -> Qle_bool x y = true.
Proof. apply Qle_bool_iff. Qed.

Lemma Qdiv_pos_le (a b u : Q) : 0 < u -> a * u <= b -> a <= b / u.
Proof.
  intros Hu H. apply Qle_shift_div_l; [exact Hu | exact H].
Qed.

(** One branch of [formatMarketCap]: the scaled value is the double
    [rnd (cap / unit)], written by [toFixed(2)]. *)
Lemma marketCap_branch (cap unit : Q) (suffix : string) :
  0 < unit -> unit <= cap -> cap / unit < 100000000000000000000 ->
  let x := rnd (cap / unit) in
  let n := Qfloor (x * 100 + (1 # 2)) in
  match toFixed2 (ndiv (Fin cap) (Fin unit)) with
  | Some t => Some ("$" ++ t ++ suffix)%string
  | None => None
  end = Some ("$" ++ Z_to_dec (n / 100) ++ "." ++ two_digits (n mod 100) ++ suffix)%string /\
  1 <= x /\ Qabs (inject_Z n / inject_Z 100 - x) <= 1 # 200 /\ (100 <= n)%Z /\
  parseFloat (js (Z_to_dec (n / 100) ++ "." ++ two_digits (n mod 100)))
  = to_num (inject_Z n / inject_Z 100).
Proof.
  intros Hu Hle Hhi x n.
  assert (Hq1 : 1 <= cap / unit) by (apply Qdiv_pos_le; [exact Hu | lra]).
  assert (Hx1 : 1 <= x).
  { unfold x. change 1 with (inject_Z 1) at 1. rewrite <- rnd_Z by (cbn; lia).
    apply rnd_mono. exact Hq1. }
  assert (Hxhi : x < 1000000000000000000000).
  { pose proof (rnd_abs_bound (cap / unit)) as Hb. fold x in Hb.
    rewrite Qabs_pos in Hb by lra. rewrite Qabs_pos in Hb by lra. lra. }
  assert (Hnd : ndiv (Fin cap) (Fin unit) = Fin x).
  { unfold ndiv. destruct (Qeq_bool unit 0) eqn:E.
    - apply Qeq_bool_iff in E. lra.
    - unfold x. apply to_num_fin. rewrite Qabs_pos by lra.
      pose proof pow2_1000_ge. lra. }
  destruct (fixed2_nonneg x ltac:(lra) Hxhi) as [Ht [Hn [Hd Hp]]]. fold n in Ht, Hn, Hd, Hp.
  rewrite Hnd, Ht. split; [f_equal; rewrite !str_app_assoc; reflexivity |].
  split; [exact Hx1 | split; [exact Hd | split; [| exact Hp]]].
  assert (H : (Qfloor (inject_Z 100) <= n)%Z).
  { apply Qfloor_resp_le. change (inject_Z 100) with 100. lra. }
  rewrite Qfloor_Z in H. exact H.
Qed.

(** X11.  For a market cap of at least 10^6 (below 10^32), [formatMarketCap]
    writes ["$"], the double [cap / unit] of the branch taken rounded to
    hundredths ([n / 100], the larger one on a tie), and the unit letter
    [T], [B] or [M]; [n / 100] is at least [1] and, in the [M] and [B]
    branches, at most [1000]. *)
Theorem formatMarketCap_decimal (cap : Q)
  (Hlo : 1000000 <= cap) (Hhi : cap < 100000000000000000000000000000000) :
  exists suffix unit,
    (suffix = "T"%string /\ unit = 1000000000000 /\ 1000000000000 <= cap \/
     suffix = "B"%string /\ unit = 1000000000 /\ 1000000000 <= cap < 1000000000000 \/
     suffix = "M"%string /\ unit = 1000000 /\ cap < 1000000000) /\
    let x := rnd (cap / unit) in
    let n := Qfloor (x * 100 + (1 # 2)) in
    formatMarketCap (Fin cap)
    = Some ("$" ++ Z_to_dec (n / 100) ++ "." ++ two_digits (n mod 100) ++ suffix)%string /\
    Qabs (inject_Z n / inject_Z 100 - x) <= 1 # 200 /\
    (100 <= n)%Z /\ (cap < 1000000000000 -> (n <= 100000)%Z) /\
    parseFloat (js (Z_to_dec (n / 100) ++ "." ++ two_digits (n mod 100)))
    = to_num (inject_Z n / inject_Z 100).
Proof.
  assert (Hup : forall u, 0 < u -> cap < 1000 * u ->
            (Qfloor (rnd (cap / u) * 100 + (1 # 2)) <= 100000)%Z).
  { intros u Hu Hc.
    assert (Hr : rnd (cap / u) <= 1000).
    { change 1000 with (inject_Z 1000). rewrite <- rnd_Z by (cbn; lia).
      apply rnd_mono. apply Qle_shift_div_r; [exact Hu |].
      change (inject_Z 1000) with 1000. lra. }
    assert (H : (Qfloor (rnd (cap / u) * 100 + (1 # 2)) <= Qfloor (inject_Z 100000 + (1 # 2)))%Z).
    { apply Qfloor_resp_le. change (inject_Z 100000) with 100000. lra. }
    exact H. }
  unfold formatMarketCap. cbv zeta. rewrite !js_le_Fin.
  destruct (Qle_bool 1000000000000 cap) eqn:ET.
  - apply Qle_bool_iff in ET.
    destruct (marketCap_branch cap 1000000000000 "T" ltac:(reflexivity) ET)
      as [H1 [_ [H3 [H4 H5]]]].
    { apply Qlt_shift_div_r; [reflexivity | lra]. }
    exists "T"%string, 1000000000000. split; [left; auto |].
    split; [exact H1 | split; [exact H3 | split; [exact H4 | split; [intros; lra | exact H5]]]].
  - apply Qle_bool_false_lt in ET.
    destruct (Qle_bool 1000000000 cap) eqn:EB.
    + apply Qle_bool_iff in EB.
      destruct (marketCap_branch cap 1000000000 "B" ltac:(reflexivity) EB)
        as [H1 [_ [H3 [H4 H5]]]].
      { apply Qlt_shift_div_r; [reflexivity | lra]. }
      exists "B"%string, 1000000000. split; [right; left; auto |].
      split; [exact H1 | split; [exact H3 | split; [exact H4 |]]].
      split; [intros _; apply Hup; [reflexivity | lra] | exact H5].
    + apply Qle_bool_false_lt in EB.
      rewrite (Qle_bool_true _ _ Hlo).
      destruct (marketCap_branch cap 1000000 "M" ltac:(reflexivity) Hlo)
        as [H1 [_ [H3 [H4 H5]]]].
      { apply Qlt_shift_div_r; [reflexivity | lra]. }
      exists "M"%string, 1000000. split; [right; right; auto |].
      split; [exact H1 | split; [exact H3 | split; [exact H4 |]]].
      split; [intros _; apply Hup; [reflexivity | lra] | exact H5].
Qed.

(** [999999999.5] is written ["$1000.00M"] and [8125000] is written
    ["$8.13M"]. *)
Lemma formatMarketCap_decimal_witness :
  formatMarketCap (Fin (1999999999 # 2)) = Some "$1000.00M"%string /\
  formatMarketCap (Fin 8125000) = Some "$8.13M"%string /\
  exists suffix unit,
    (suffix = "T"%string /\ unit = 1000000000000 /\ 1000000000000 <= 8125000 \/
     suffix = "B"%string /\ unit = 1000000000 /\ 1000000000 <= 8125000 < 1000000000000 \/
     suffix = "M"%string /\ unit = 1000000 /\ 8125000 < 1000000000) /\
    let x := rnd (8125000 / unit) in
    let n := Qfloor (x * 100 + (1 # 2)) in
    formatMarketCap (Fin 8125000)
    = Some ("$" ++ Z_to_dec (n / 100) ++ "." ++ two_digits (n mod 100) ++ suffix)%string /\
    Qabs (inject_Z n / inject_Z 100 - x) <= 1 # 200 /\
    (100 <= n)%Z /\ (8125000 < 1000000000000 -> (n <= 100000)%Z) /\
    parseFloat (js (Z_to_dec (n / 100) ++ "." ++ two_digits (n mod 100)))
    = to_num (inject_Z n / inject_Z 100).
Proof.
  split; [vm_compute; reflexivity |].
  split; [vm_compute; reflexivity |].
  apply (formatMarketCap_decimal 8125000); apply Qlt_alt || apply Qle_bool_iff;
    reflexivity.
Defined.

(** ** Colours and texts of the portfolio cells *)

Lemma formatPercent_shape (q : Q) :
  Qabs q < 1000000000000000000000 ->
  exists body, formatPercent (Fin q)
               = Some (String (if Qle_bool 0 q then "+" else "-") body).
Proof.
  intros Hq. unfold formatPercent, toFixed2.
  rewrite (toFixed2_small q Hq), js_le_Fin.
  destruct (Qle_bool 0 q); eexists; reflexivity.
Qed.

(** X12.  The colour of a return cell ([Portfolio.tsx], summary card and
    each holding row) agrees with its text, for a return that is [NaN],
    an infinity, or finite below 10^21 in absolute value (beyond that
    [toFixed] switches to exponent notation, which is not modelled):
    muted exactly when the text is ["0.00%"], green exactly when it starts
    with ["+"], red exactly when it starts with ["-"]; a [NaN] (or absent)
    return shows as a zero one.  A tiny non-zero return is not muted:
    [-0.001] shows ["-0.00%"] in red. *)
Theorem return_cell_text_matches_tone (x : num)
  (Hx : forall q, x = Fin q -> Qabs q < 1000000000000000000000) :
  exists s, percent_text x = Some s /\
    (gain_tone x = Muted <-> s = "0.00%"%string) /\
    (gain_tone x = Green <-> exists r, s = String "+" r) /\
    (gain_tone x = Red <-> exists r, s = String "-" r) /\
    (x = NaN -> gain_tone x = Muted /\ s = "0.00%"%string).
Proof.
  destruct x as [q | | | ].
  - unfold percent_text, gain_tone. cbn [js_or_zero is_zero].
    destruct (Qeq_bool q 0) eqn:Hz.
    + exists "0.00%"%string. split; [reflexivity |].
      split; [tauto |].
      split; [split; [discriminate | intros [r E]; discriminate E] |].
      split; [split; [discriminate | intros [r E]; discriminate E] |].
      intros H; discriminate H.
    + destruct (formatPercent_shape q (Hx q eq_refl)) as [body Hb]. rewrite Hb.
      exists (String (if Qle_bool 0 q then "+" else "-") body).
      split; [reflexivity |].
      assert (Hv : ~ q == 0) by (intros E; apply Qeq_bool_iff in E; congruence).
      cbn [num_lt].
      destruct (Qle_bool q 0) eqn:Hle, (Qle_bool 0 q) eqn:Hge; cbn [negb].
      * apply Qle_bool_iff in Hle, Hge. exfalso. apply Hv. lra.
      * split; [split; discriminate |].
        split; [split; [discriminate | intros [r E]; discriminate E] |].
        split; [split; [eauto | auto] | intros H; discriminate H].
      * split; [split; discriminate |].
        split; [split; [eauto | auto] |].
        split; [split; [discriminate | intros [r E]; discriminate E] |].
        intros H; discriminate H.
      * apply Qle_bool_false_lt in Hle, Hge. exfalso. lra.
  - exists "+Infinity%"%string. split; [reflexivity |].
    split; [split; discriminate |].
    split; [split; [eauto | auto] |].
    split; [split; [discriminate | intros [r E]; discriminate E] |].
    intros H; discriminate H.
  - exists "-Infinity%"%string. split; [reflexivity |].
    split; [split; discriminate |].
    split; [split; [discriminate | intros [r E]; discriminate E] |].
    split; [split; [eauto | auto] |].
    intros H; discriminate H.
  - exists "0.00%"%string. split; [reflexivity |].
    split; [tauto |].
    split; [split; [discriminate | intros [r E]; discriminate E] |].
    split; [split; [discriminate | intros [r E]; discriminate E] |].
    auto.
Qed.

Lemma return_cell_text_matches_tone_witness :
  (forall q, Fin (- (1 # 1000)) = Fin q -> Qabs q < 1000000000000000000000) /\
  percent_text (Fin (- (1 # 1000))) = Some "-0.00%"%string /\
  gain_tone (Fin (- (1 # 1000))) = Red /\
  exists s, percent_text (Fin (- (1 # 1000))) = Some s /\
    (gain_tone (Fin (- (1 # 1000))) = Muted <-> s = "0.00%"%string) /\
    (gain_tone (Fin (- (1 # 1000))) = Green <-> exists r, s = String "+" r) /\
    (gain_tone (Fin (- (1 # 1000))) = Red <-> exists r, s = String "-" r) /\
    (Fin (- (1 # 1000)) = NaN ->
     gain_tone (Fin (- (1 # 1000))) = Muted /\ s = "0.00%"%string).
Proof.
  assert (Hq : forall q, Fin (- (1 # 1000)) = Fin q -> Qabs q < 1000000000000000000000).
  { intros q E. injection E as <-. apply Qlt_alt. reflexivity. }
  split; [exact Hq |]. split; [vm_compute; reflexivity |].
  split; [vm_compute; reflexivity |].
  exact (return_cell_text_matches_tone (Fin (- (1 # 1000))) Hq).
Defined.

Lemma Qabs_opp_pos_eq (a : Q) : 0 < a -> Qabs (- a) = a /\ Qabs a = a.
Proof.
  destruct a as [n d]. unfold Qlt. cbn. intros H.
  unfold Qabs, Qopp. cbn. split; f_equal; lia.
Qed.

(** X13.  The gain cells ([Portfolio.tsx]) carry no minus sign: a holding's
    loss of [a] reads [formatPrice(a)] while a gain of [a] reads
    ["+" + formatPrice(a)]; the summary card shows the same text for a
    gain and a loss of [a], the sign being carried by colour (and icon)
    only; a [NaN] (or absent) gain reads like a zero one. *)
Theorem gain_text_unsigned_loss (formatPrice : num -> string) (a : Q) (Ha : 0 < a) :
  holding_gain_text formatPrice (Fin a) = ("+" ++ formatPrice (Fin a))%string /\
  holding_gain_text formatPrice (Fin (- a)) = formatPrice (Fin a) /\
  total_gain_text formatPrice (Fin (- a)) = total_gain_text formatPrice (Fin a) /\
  gain_tone (Fin a) = Green /\ gain_tone (Fin (- a)) = Red /\
  holding_gain_text formatPrice NaN = holding_gain_text formatPrice (Fin 0) /\
  total_gain_text formatPrice NaN = total_gain_text formatPrice (Fin 0) /\
  gain_tone NaN = gain_tone (Fin 0).
Proof.
  destruct (Qabs_opp_pos_eq a Ha) as [Hn Hp].
  assert (Hz : Qeq_bool a 0 = false).
  { destruct (Qeq_bool a 0) eqn:E; [apply Qeq_bool_iff in E; lra | reflexivity]. }
  assert (Hzn : Qeq_bool (- a) 0 = false).
  { destruct (Qeq_bool (- a) 0) eqn:E; [apply Qeq_bool_iff in E; lra | reflexivity]. }
  assert (Hle : Qle_bool a 0 = false) by (apply Qle_bool_false_lt; lra).
  assert (Hlen : Qle_bool (- a) 0 = true) by (apply Qle_bool_iff; lra).
  assert (Hge : Qle_bool 0 a = true) by (apply Qle_bool_iff; lra).
  assert (Hgen : Qle_bool 0 (- a) = false) by (apply Qle_bool_false_lt; lra).
  unfold holding_gain_text, total_gain_text, gain_tone.
  cbn [js_or_zero is_zero Math_abs num_lt].
  rewrite !js_le_Fin.
  rewrite Hz, Hzn, Hle, Hlen, Hge, Hgen, Hn, Hp.
  repeat split; reflexivity.
Qed.

Lemma gain_text_unsigned_loss_witness :
  0 < 25 /\
  holding_gain_text (fun _ => "$25.00"%string) (Fin 25) = "+$25.00"%string /\
  holding_gain_text (fun _ => "$25.00"%string) (Fin (- 25)) = "$25.00"%string.
Proof.
  split; [reflexivity |].
  destruct (gain_text_unsigned_loss (fun _ => "$25.00"%string) 25 eq_refl)
    as [H1 [H2 _]].
  split; [exact H1 | exact H2].
Defined.
